(** * ChunkSparsityPattern (deal.II, lac/source/chunk_sparsity_pattern.cc)

    A shallow embedding of the chunked sparsity pattern and of the
    properties its description states.  Unsigned integers are [N] with the
    32-bit wrap-around written out, streams are lists of characters, the
    wrapped [SparsityPattern] object is an interface ([SparsityPatternOps])
    with a small in-memory instance ([Mock]) to run the code on. *)

From stdpp Require Import base numbers list strings.
From Stdlib Require Import NArith Ascii Lia Permutation.

Local Open Scope N_scope.

(** ** Outcomes of a call

    A call returns, throws one of deal.II's exceptions ([Assert] and
    [AssertThrow], both active: the debug configuration), or runs into
    behaviour C++ leaves undefined. *)

Inductive exception : Type :=
| ExcInvalidConstructorCall
| ExcInvalidNumber (m : N)
| ExcInvalidIndex (i n : N)
| ExcIndexRange (i lo hi : N)
| ExcNotQuadratic
| ExcNotImplemented
| ExcIO.

Inductive undefined : Type :=
| DivisionByZero
| VectorSubscript.

Inductive result (A : Type) : Type :=
| Ok (a : A)
| Throw (e : exception)
| Fault (u : undefined).

Arguments Ok {A} a.
Arguments Throw {A} e.
Arguments Fault {A} u.

#[export] Instance result_ret : MRet result := @Ok.
#[export] Instance result_bind : MBind result := fun A B f m =>
  match m with
  | Ok a => f a
  | Throw e => Throw e
  | Fault u => Fault u
  end.

(** [Assert (cond, exc)] and [AssertThrow (cond, exc)]. *)
Definition Assert (cond : bool) (exc : exception) : result unit :=
  if cond then Ok tt else Throw exc.

(** Every exception but the stream one reports a violated precondition. *)
Definition precondition_violation (e : exception) : bool :=
  match e with
  | ExcIO => false
  | _ => true
  end.

Definition is_ok {A} (r : result A) : bool :=
  match r with Ok _ => true | _ => false end.

(** ** [unsigned int] *)

Module UInt.
Definition modulus : N := 2 ^ 32.
Definition max : N := modulus - 1.
Definition wrap (x : N) : N := x mod modulus.
Definition add (a b : N) : N := wrap (a + b).
Definition mul (a b : N) : N := wrap (a * b).
(** [a - b] on operands below [modulus]. *)
Definition sub (a b : N) : N := wrap (a + modulus - b).
Definition div (a b : N) : result N :=
  if b =? 0 then Fault DivisionByZero else Ok (a / b).
End UInt.

(** ** Streams *)

Definition chars (s : string) : list ascii := String.list_ascii_of_string s.

Module Stream.

(** An output stream: what was written, and whether it is still good. *)
Record ostream : Type := { written : list ascii; good : bool }.

(** [out << c], [out << "..."]: nothing happens on a stream that is not good. *)
Definition put (out : ostream) (s : list ascii) : ostream :=
  if good out then {| written := written out ++ s; good := true |} else out.

Definition digit_char (d : N) : ascii := ascii_of_N (48 + d).

Fixpoint dec_aux (fuel : nat) (n : N) (acc : list ascii) : list ascii :=
  match fuel with
  | O => acc
  | S f =>
      let acc' := digit_char (n mod 10) :: acc in
      if n / 10 =? 0 then acc' else dec_aux f (n / 10) acc'
  end.

(** The decimal digits of [n], most significant first, ["0"] for zero:
    what [out << n] writes for an unsigned [n]. *)
Definition dec (n : N) : list ascii := dec_aux (S (N.to_nat (N.size n))) n [].

(** An input stream: the characters not yet consumed and the fail bit. *)
Record istream : Type := { pending : list ascii; failed : bool }.

Definition is_space (c : ascii) : bool :=
  let n := N_of_ascii c in (n =? 32) || ((9 <=? n) && (n <=? 13)).

Definition is_digit (c : ascii) : bool :=
  let n := N_of_ascii c in (48 <=? n) && (n <=? 57).

Definition digit_value (c : ascii) : N := N_of_ascii c - 48.

Fixpoint skipws (s : list ascii) : list ascii :=
  match s with
  | c :: s' => if is_space c then skipws s' else s
  | [] => []
  end.

(** The longest run of digits at the front of [s], accumulated onto [v]. *)
Fixpoint digits (v : N) (s : list ascii) : N * list ascii :=
  match s with
  | c :: s' => if is_digit c then digits (v * 10 + digit_value c) s' else (v, s)
  | [] => (v, [])
  end.

Definition starts_with_digit (s : list ascii) : bool :=
  match s with
  | c :: _ => is_digit c
  | [] => false
  end.

Definition set_failed (s : list ascii) : istream :=
  {| pending := s; failed := true |}.

(** A good output stream with nothing written yet, and a good input
    stream that holds [s]. *)
Definition sink : ostream := {| written := []; good := true |}.
Definition source (s : list ascii) : istream := {| pending := s; failed := false |}.

(** [in >> c] for a [char]: skips white space and takes one character.  On
    a failed stream, or at the end of the input, [c] keeps its old value. *)
Definition get_char (i : istream) (old : option ascii) : istream * option ascii :=
  if failed i then (i, old)
  else match skipws (pending i) with
       | c :: s' => ({| pending := s'; failed := false |}, Some c)
       | [] => (set_failed [], old)
       end.

(** [in >> n] for an [unsigned int] in decimal: skips white space, takes an
    optional sign and the digits that follow; no digit, or a value above
    the largest [unsigned int], sets the fail bit and leaves [n] alone. *)
Definition get_uint (i : istream) (old : N) : istream * N :=
  if failed i then (i, old)
  else
    let s := skipws (pending i) in
    let '(negative, s1) :=
      match s with
      | c :: s' =>
          if Ascii.eqb c "-" then (true, s')
          else if Ascii.eqb c "+" then (false, s')
          else (false, s)
      | [] => (false, s)
      end in
    if starts_with_digit s1 then
      let '(v, rest) := digits 0 s1 in
      if v <=? UInt.max
      then ({| pending := rest; failed := false |},
            if negative then UInt.sub 0 v else v)
      else (set_failed rest, old)
    else (set_failed s1, old).

End Stream.

Import Stream.

Notation "out << s" := (put out s) (at level 50, left associativity).

(** ** Loops *)

(** [for (unsigned int i = first; ...; ++i) body], run [count] times. *)
Fixpoint for_range {A} (count : nat) (first : N) (body : N -> A -> result A) (a : A)
  : result A :=
  match count with
  | O => Ok a
  | S k => a' ← body first a; for_range k (first + 1) body a'
  end.

(** [for (unsigned int i = 0; i < m; ++i) body]. *)
Definition for_upto {A} (m : N) (body : N -> A -> result A) (a : A) : result A :=
  for_range (N.to_nat m) 0 body a.

(** A range-based loop over the elements an iterator yields. *)
Fixpoint for_each {A B} (l : list B) (body : B -> A -> result A) (a : A) : result A :=
  match l with
  | [] => Ok a
  | x :: l' => a' ← body x a; for_each l' body a'
  end.

(** [v[i]] on a [std::vector]: outside the vector the behaviour is undefined. *)
Definition at_ {A} (v : list A) (i : N) : result A :=
  match v !! N.to_nat i with
  | Some x => Ok x
  | None => Fault VectorSubscript
  end.

(** [v[i] = x]. *)
Definition store {A} (v : list A) (i : N) (x : A) : result (list A) :=
  if (N.to_nat i <? length v)%nat then Ok (<[N.to_nat i := x]> v) else Fault VectorSubscript.

(** ** The wrapped object *)

(** Modelled from the spec: the coarse sparsity structure ([SparsityPattern],
    which is not part of these sources), as the capability the chunked
    pattern consumes: the member functions it calls.  [sp_block_write] is
    the payload the object writes; [None] from the two copying operations
    stands for the checks the object performs itself
    ([ExcInvalidConstructorCall]). *)
Class SparsityPatternOps (SP : Type) : Type := {
  sp_default : SP;
  sp_copy_construct : SP -> option SP;
  sp_assign : SP -> SP -> option SP;
  sp_reinit : SP -> N -> N -> list N -> bool -> SP;
  sp_compress : SP -> SP;
  sp_add : SP -> N -> N -> SP;
  sp_exists : SP -> N -> N -> bool;
  sp_bandwidth : SP -> N;
  sp_block_write : SP -> list ascii;
  sp_block_read : SP -> istream -> result (SP * istream);
}.

(** Modelled from the spec: what the coarse structure promises.  It stores
    the set of chunks: a chunk is present after it was inserted and no other
    chunk changes, [compress] keeps the chunks, and block I/O reads back
    what it wrote. *)
Class SparsityPatternLaws (SP : Type) `{SparsityPatternOps SP} : Prop := {
  sp_exists_add : forall s r c r' c',
    sp_exists (sp_add s r c) r' c' = ((r' =? r) && (c' =? c)) || sp_exists s r' c';
  sp_exists_compress : forall s r c,
    sp_exists (sp_compress s) r c = sp_exists s r c;
  sp_block_read_write : forall s0 s rest,
    exists s',
      sp_block_read s0 (source (sp_block_write s ++ rest)) = Ok (s', source rest)
      /\ forall r c, sp_exists s' r c = sp_exists s r c;
}.

(** ** Sources of [copy_from] *)

(** Modelled from the spec: [CompressedSparsityPattern] (not part of these
    sources), consumed through its row count, column count, the number of
    entries of a row and ordered column access. *)
Record CompressedSparsityPattern : Type := {
  csp_n_rows : N;
  csp_n_cols : N;
  csp_row_length : N -> N;
  csp_column_number : N -> N -> N;
}.

(** Modelled from the spec: [CompressedSetSparsityPattern] (not part of
    these sources), consumed through its row count, column count and a
    forward iterator over the columns of a row; [cssp_row r] lists what the
    iterator yields from [row_begin (r)] up to [row_end (r)]. *)
Record CompressedSetSparsityPattern : Type := {
  cssp_n_rows : N;
  cssp_n_cols : N;
  cssp_row : N -> list N;
}.

(** [FullMatrix<number>] (lac/full_matrix.h): [val], [dim_range], [dim_image]. *)
Record FullMatrix (number : Type) : Type := {
  val : list number;
  dim_range : N;
  dim_image : N;
}.

Arguments val {number} _.
Arguments dim_range {number} _.
Arguments dim_image {number} _.

Section FullMatrix.
Context {number : Type}.

Definition el (M : FullMatrix number) (i j : N) : result number :=
  at_ (val M) (UInt.add (UInt.mul i (dim_range M)) j).

Definition fm_m (M : FullMatrix number) : N := dim_image M.
Definition fm_n (M : FullMatrix number) : N := dim_range M.

(** [operator() (i, j) const] *)
Definition fm_at (M : FullMatrix number) (i j : N) : result number :=
  Assert (i <? dim_image M) (ExcInvalidIndex i (dim_image M)) ;;
  Assert (j <? dim_range M) (ExcInvalidIndex i (dim_range M)) ;;
  el M i j.
End FullMatrix.

(** ** ChunkSparsityPattern *)

Section Chunk.
Context {SP : Type} `{SparsityPatternOps SP}.

Record ChunkSparsityPattern : Type := {
  rows : N;
  cols : N;
  chunk_size : N;
  sparsity_pattern : SP;
}.

Definition with_sparsity_pattern (this : ChunkSparsityPattern) (sp : SP)
  : ChunkSparsityPattern :=
  {| rows := rows this; cols := cols this; chunk_size := chunk_size this;
     sparsity_pattern := sp |}.

Definition n_rows (this : ChunkSparsityPattern) : N := rows this.
Definition n_cols (this : ChunkSparsityPattern) : N := cols this.

(** The number of chunks [reinit] computes for [m] rows (or columns). *)
Definition chunk_count (m chunk_size : N) : result N :=
  UInt.div (UInt.add m chunk_size) chunk_size.

(** The body of the loop over the rows in [reinit]. *)
Definition chunk_row_lengths_body (row_lengths : list N) (chunk_size : N)
    (i : N) (chunk_row_lengths : list N) : result (list N) :=
  k ← UInt.div i chunk_size;
  a ← at_ chunk_row_lengths k;
  b ← at_ row_lengths i;
  store chunk_row_lengths k (N.max a b).

(** [reinit (m, n, const VectorSlice<...> &row_lengths, chunk_size, optimize_diag)] *)
Definition reinit_slice (this : ChunkSparsityPattern) (m n : N)
    (row_lengths : list N) (chunk_size : N) (optimize_diag : bool)
  : result ChunkSparsityPattern :=
  Assert (N.of_nat (length row_lengths) =? m) (ExcInvalidNumber m) ;;
  m_chunks ← chunk_count m chunk_size;
  n_chunks ← chunk_count n chunk_size;
  chunk_row_lengths ←
    for_upto m (chunk_row_lengths_body row_lengths chunk_size)
             (replicate (N.to_nat m_chunks) 0);
  Ok {| rows := m; cols := n; chunk_size := chunk_size;
        sparsity_pattern :=
          sp_reinit (sparsity_pattern this) m_chunks n_chunks
                    chunk_row_lengths optimize_diag |}.

(** [reinit (m, n, const std::vector<...> &row_lengths, chunk_size, optimize_diag)] *)
Definition reinit (this : ChunkSparsityPattern) (m n : N)
    (row_lengths : list N) (chunk_size : N) (optimize_diag : bool)
  : result ChunkSparsityPattern :=
  reinit_slice this m n row_lengths chunk_size optimize_diag.

(** [reinit (m, n, max_per_row, chunk_size, optimize_diag)] *)
Definition reinit_max_per_row (this : ChunkSparsityPattern) (m n : N)
    (max_per_row : N) (chunk_size : N) (optimize_diag : bool)
  : result ChunkSparsityPattern :=
  let row_lengths := replicate (N.to_nat m) max_per_row in
  reinit this m n row_lengths chunk_size optimize_diag.

(** The object a constructor starts from: [rows], [cols] and [chunk_size]
    hold whatever the memory held, the wrapped object is default-constructed
    unless the initialiser list says otherwise. *)
Definition raw (indeterminate : N * N * N) (sp : SP) : ChunkSparsityPattern :=
  let '(r, c, s) := indeterminate in
  {| rows := r; cols := c; chunk_size := s; sparsity_pattern := sp |}.

(** [optimize_diag] has a default argument in the header, which is not part
    of these sources. *)
Variable optimize_diag_default : bool.

(** [ChunkSparsityPattern ()] *)
Definition default_constructor (indeterminate : N * N * N)
  : result ChunkSparsityPattern :=
  reinit_max_per_row (raw indeterminate sp_default) 0 0 0 0 optimize_diag_default.

(** [ChunkSparsityPattern (const ChunkSparsityPattern &s)] *)
Definition copy_constructor (indeterminate : N * N) (s : ChunkSparsityPattern)
  : result ChunkSparsityPattern :=
  match sp_copy_construct (sparsity_pattern s) with
  | None => Throw ExcInvalidConstructorCall
  | Some sp =>
      let this := raw (indeterminate, chunk_size s) sp in
      Assert (rows s =? 0) ExcInvalidConstructorCall ;;
      Assert (cols s =? 0) ExcInvalidConstructorCall ;;
      reinit_max_per_row this 0 0 0 0 false
  end.

(** [ChunkSparsityPattern (m, n, max_per_row, chunk_size, optimize_diag)] *)
Definition constructor (indeterminate : N * N * N) (m n max_per_row chunk_size : N)
    (optimize_diag : bool) : result ChunkSparsityPattern :=
  reinit_max_per_row (raw indeterminate sp_default) m n max_per_row chunk_size
                     optimize_diag.

(** [ChunkSparsityPattern (m, n, row_lengths, chunk_size, optimize_diag)] *)
Definition constructor_row_lengths (indeterminate : N * N * N) (m n : N)
    (row_lengths : list N) (chunk_size : N) (optimize_diag : bool)
  : result ChunkSparsityPattern :=
  reinit (raw indeterminate sp_default) m n row_lengths chunk_size optimize_diag.

(** [operator = (const ChunkSparsityPattern &s)] *)
Definition assign (this s : ChunkSparsityPattern) : result ChunkSparsityPattern :=
  Assert (rows s =? 0) ExcInvalidConstructorCall ;;
  Assert (cols s =? 0) ExcInvalidConstructorCall ;;
  match sp_assign (sparsity_pattern this) (sparsity_pattern s) with
  | None => Throw ExcInvalidConstructorCall
  | Some sp => Ok (with_sparsity_pattern this sp)
  end.

Definition compress (this : ChunkSparsityPattern) : ChunkSparsityPattern :=
  with_sparsity_pattern this (sp_compress (sparsity_pattern this)).

Definition add (this : ChunkSparsityPattern) (i j : N) : result ChunkSparsityPattern :=
  Assert (i <? rows this) (ExcInvalidIndex i (rows this)) ;;
  Assert (j <? cols this) (ExcInvalidIndex j (cols this)) ;;
  r ← UInt.div i (chunk_size this);
  c ← UInt.div j (chunk_size this);
  Ok (with_sparsity_pattern this (sp_add (sparsity_pattern this) r c)).

Definition exists_ (this : ChunkSparsityPattern) (i j : N) : result bool :=
  Assert (i <? rows this) (ExcIndexRange i 0 (rows this)) ;;
  Assert (j <? cols this) (ExcIndexRange j 0 (cols this)) ;;
  r ← UInt.div i (chunk_size this);
  c ← UInt.div j (chunk_size this);
  Ok (sp_exists (sparsity_pattern this) r c).

Definition bandwidth (this : ChunkSparsityPattern) : N :=
  N.min (UInt.add (UInt.mul (sp_bandwidth (sparsity_pattern this)) (chunk_size this))
                  (UInt.sub (chunk_size this) 1))
        (N.max (n_rows this) (n_cols this)).

Definition block_write (this : ChunkSparsityPattern) (out : ostream) : result ostream :=
  Assert (good out) ExcIO ;;
  let out := out << chars "["
                 << dec (rows this) << chars " "
                 << dec (cols this) << chars " "
                 << chars "][" in
  let out := out << sp_block_write (sparsity_pattern this) in
  let out := out << chars "]" in
  Assert (good out) ExcIO ;;
  Ok out.

Definition is_char (c : option ascii) (expected : ascii) : bool :=
  match c with
  | Some c => Ascii.eqb c expected
  | None => false
  end.

(** [c] is not initialised before the first [in >> c]: [None].  On input
    with no character but white space that extraction leaves it so, and the
    comparison with ['['] that follows is read as unequal. *)
Definition block_read (this : ChunkSparsityPattern) (in_ : istream)
  : result (ChunkSparsityPattern * istream) :=
  Assert (negb (failed in_)) ExcIO ;;
  let c := None in
  let '(in_, c) := get_char in_ c in
  Assert (is_char c "[") ExcIO ;;
  let '(in_, rows') := get_uint in_ (rows this) in
  let '(in_, cols') := get_uint in_ (cols this) in
  let '(in_, c) := get_char in_ c in
  Assert (is_char c "]") ExcIO ;;
  let '(in_, c) := get_char in_ c in
  Assert (is_char c "[") ExcIO ;;
  '(sp, in_) ← sp_block_read (sparsity_pattern this) in_;
  let '(in_, c) := get_char in_ c in
  Assert (is_char c "]") ExcIO ;;
  Ok ({| rows := rows'; cols := cols'; chunk_size := chunk_size this;
         sparsity_pattern := sp |}, in_).

(** [++entries_per_row[row]] *)
Definition increment (entries_per_row : list N) (row : N) : result (list N) :=
  x ← at_ entries_per_row row;
  store entries_per_row row (UInt.add x 1).

(** [copy_from (const CompressedSparsityPattern &csp, chunk_size, optimize_diag)] *)
Definition copy_from_csp (this : ChunkSparsityPattern)
    (csp : CompressedSparsityPattern) (chunk_size : N) (optimize_diag : bool)
  : result ChunkSparsityPattern :=
  entries_per_row ←
    for_upto (csp_n_rows csp) (fun row entries_per_row =>
      for_upto (csp_row_length csp row) (fun j entries_per_row =>
        increment entries_per_row row) entries_per_row)
      (replicate (N.to_nat (csp_n_rows csp)) 0);
  this ← reinit this (csp_n_rows csp) (csp_n_cols csp) entries_per_row
                chunk_size optimize_diag;
  this ←
    for_upto (csp_n_rows csp) (fun row this =>
      for_upto (csp_row_length csp row) (fun j this =>
        add this row (csp_column_number csp row j)) this) this;
  Ok (compress this).

(** [copy_from (const CompressedSetSparsityPattern &csp, chunk_size, optimize_diag)] *)
Definition copy_from_cssp (this : ChunkSparsityPattern)
    (csp : CompressedSetSparsityPattern) (chunk_size : N) (optimize_diag : bool)
  : result ChunkSparsityPattern :=
  entries_per_row ←
    for_upto (cssp_n_rows csp) (fun row entries_per_row =>
      for_each (cssp_row csp row) (fun col_num entries_per_row =>
        increment entries_per_row row) entries_per_row)
      (replicate (N.to_nat (cssp_n_rows csp)) 0);
  this ← reinit this (cssp_n_rows csp) (cssp_n_cols csp) entries_per_row
                chunk_size optimize_diag;
  this ←
    for_upto (cssp_n_rows csp) (fun row this =>
      for_each (cssp_row csp row) (fun col_num this =>
        add this row col_num) this) this;
  Ok (compress this).

(** [copy_from (const FullMatrix<number> &matrix, chunk_size, optimize_diag)];
    [nonzero x] is [x != 0] at the element type. *)
Definition copy_from_full {number : Type} (nonzero : number -> bool)
    (this : ChunkSparsityPattern) (matrix : FullMatrix number)
    (chunk_size : N) (optimize_diag : bool) : result ChunkSparsityPattern :=
  entries_per_row ←
    for_upto (fm_m matrix) (fun row entries_per_row =>
      for_upto (fm_n matrix) (fun col entries_per_row =>
        x ← fm_at matrix row col;
        if nonzero x then increment entries_per_row row
        else Ok entries_per_row) entries_per_row)
      (replicate (N.to_nat (fm_m matrix)) 0);
  this ← reinit this (fm_m matrix) (fm_n matrix) entries_per_row
                chunk_size optimize_diag;
  this ←
    for_upto (fm_m matrix) (fun row this =>
      for_upto (fm_n matrix) (fun col this =>
        x ← fm_at matrix row col;
        if nonzero x then add this row col else Ok this) this) this;
  Ok (compress this).

(** The protocol of a caller that brings the row lengths and inserts the
    entries itself: [reinit], one [add] per entry, [compress]. *)
Definition fill_from_entries (this : ChunkSparsityPattern) (m n : N)
    (row_lengths : list N) (entries : list (N * N))
    (chunk_size : N) (optimize_diag : bool) : result ChunkSparsityPattern :=
  this ← reinit this m n row_lengths chunk_size optimize_diag;
  this ← for_each entries (fun '(i, j) this => add this i j) this;
  Ok (compress this).

End Chunk.

Arguments ChunkSparsityPattern SP : clear implicits.

(** ** An in-memory sparsity pattern *)

Module Mock.

(** Modelled from the spec: the coarse sparsity structure as the simplest
    object behind [SparsityPatternOps], its size in chunks and the chunks
    inserted so far, in the order they came.  It stands in for
    [SparsityPattern] wherever the code is run on concrete values. *)
Record t : Type := { n_rows : N; n_cols : N; entries : list (N * N) }.

Definition empty : t := {| n_rows := 0; n_cols := 0; entries := [] |}.

Definition is_entry (r c : N) (e : N * N) : bool := (e.1 =? r) && (e.2 =? c).

Definition has (s : t) (r c : N) : bool := existsb (is_entry r c) (entries s).

Definition insert (s : t) (r c : N) : t :=
  if has s r c then s
  else {| n_rows := n_rows s; n_cols := n_cols s; entries := entries s ++ [(r, c)] |}.

Definition copy (s : t) : option t :=
  match entries s with
  | [] => Some s
  | _ :: _ => None
  end.

Definition reinit (_ : t) (m n : N) (_ : list N) (_ : bool) : t :=
  {| n_rows := m; n_cols := n; entries := [] |}.

Definition distance (e : N * N) : N := N.max (e.1 - e.2) (e.2 - e.1).

Definition bandwidth (s : t) : N := foldr N.max 0 (map distance (entries s)).

Definition write_entry (e : N * N) : list ascii :=
  dec e.1 ++ chars " " ++ dec e.2 ++ chars " ".

Definition write (s : t) : list ascii :=
  dec (n_rows s) ++ chars " " ++ dec (n_cols s) ++ chars " "
  ++ dec (N.of_nat (length (entries s))) ++ chars " "
  ++ concat (map write_entry (entries s)).

(** A number of any size followed by one blank. *)
Definition number (s : list ascii) : option (N * list ascii) :=
  if starts_with_digit s then
    match digits 0 s with
    | (v, c :: rest) => if Ascii.eqb c " " then Some (v, rest) else None
    | (_, []) => None
    end
  else None.

Fixpoint read_entries (count : nat) (s : list ascii)
  : option (list (N * N) * list ascii) :=
  match count with
  | O => Some ([], s)
  | S k =>
      match number s with
      | Some (r, s1) =>
          match number s1 with
          | Some (c, s2) =>
              match read_entries k s2 with
              | Some (l, s3) => Some ((r, c) :: l, s3)
              | None => None
              end
          | None => None
          end
      | None => None
      end
  end.

Definition read (_ : t) (i : istream) : result (t * istream) :=
  if failed i then Throw ExcIO
  else
    match number (pending i) with
    | Some (m, s1) =>
        match number s1 with
        | Some (n, s2) =>
            match number s2 with
            | Some (k, s3) =>
                match read_entries (N.to_nat k) s3 with
                | Some (l, s4) =>
                    Ok ({| n_rows := m; n_cols := n; entries := l |},
                        {| pending := s4; failed := false |})
                | None => Throw ExcIO
                end
            | None => Throw ExcIO
            end
        | None => Throw ExcIO
        end
    | None => Throw ExcIO
    end.

#[global] Instance ops : SparsityPatternOps t := {|
  sp_default := empty;
  sp_copy_construct := copy;
  sp_assign := fun _ s => copy s;
  sp_reinit := reinit;
  sp_compress := fun s => s;
  sp_add := insert;
  sp_exists := has;
  sp_bandwidth := bandwidth;
  sp_block_write := write;
  sp_block_read := read;
|}.

End Mock.

(** ** The notions the properties are stated with *)

(** [0; 1; ...; m - 1] *)
Definition count_up (m : N) : list N := map N.of_nat (seq 0 (N.to_nat m)).

(** [ceil (m / c)] *)
Definition ceil_div (m c : N) : N := (m + c - 1) / c.

(** The rows of [row_lengths] with their index. *)
Definition indexed (row_lengths : list N) : list (N * N) :=
  zip (count_up (N.of_nat (length row_lengths))) row_lengths.

Definition in_chunk_row (c k : N) (e : N * N) : bool := e.1 / c =? k.

(** The largest, and the sum, of [row_lengths[i]] over the rows [i] with
    [floor (i / c) = k]. *)
Definition chunk_row_max (row_lengths : list N) (c k : N) : N :=
  foldr N.max 0 (map snd (List.filter (in_chunk_row c k) (indexed row_lengths))).

Definition chunk_row_sum (row_lengths : list N) (c k : N) : N :=
  foldr N.add 0 (map snd (List.filter (in_chunk_row c k) (indexed row_lengths))).

(** The byte sequence of the persistence format as the description lists it,
    and with a blank between the columns and the bracket. *)
Definition format_described (rows cols : N) (payload : list ascii) : list ascii :=
  chars "[" ++ dec rows ++ chars " " ++ dec cols ++ chars "]"
  ++ chars "[" ++ payload ++ chars "]".

Definition format_written (rows cols : N) (payload : list ascii) : list ascii :=
  chars "[" ++ dec rows ++ chars " " ++ dec cols ++ chars " " ++ chars "]"
  ++ chars "[" ++ payload ++ chars "]".

Section Described.
Context {SP : Type} `{SparsityPatternOps SP}.

(** Two patterns that cannot be told apart: same size, same chunk size,
    the same chunks present. *)
Definition same_pattern (p q : ChunkSparsityPattern SP) : Prop :=
  rows p = rows q /\ cols p = cols q /\ chunk_size p = chunk_size q
  /\ forall r c, sp_exists (sparsity_pattern p) r c = sp_exists (sparsity_pattern q) r c.

(** The patterns a program can hold: what [reinit] (and with it every
    constructor that returns) made for [unsigned int] arguments, and what
    the member functions made of such a pattern. *)
Inductive constructed : ChunkSparsityPattern SP -> Prop :=
| constructed_reinit this m n row_lengths c optimize_diag p :
    m < UInt.modulus -> n < UInt.modulus -> c < UInt.modulus ->
    reinit this m n row_lengths c optimize_diag = Ok p ->
    constructed p
| constructed_add p i j p' :
    constructed p -> add p i j = Ok p' -> constructed p'
| constructed_compress p :
    constructed p -> constructed (compress p)
| constructed_assign p s p' :
    constructed p -> assign p s = Ok p' -> constructed p'
| constructed_block_read p in_ p' in' :
    constructed p -> block_read p in_ = Ok (p', in') -> constructed p'.

(** A chunk size of at least one, and fields that are [unsigned int]s. *)
Definition well_sized (p : ChunkSparsityPattern SP) : Prop :=
  1 <= chunk_size p /\ chunk_size p < UInt.modulus
  /\ rows p < UInt.modulus /\ cols p < UInt.modulus.

(** The entries a source hands to [add], in the order of its loops. *)
Definition positions_csp (csp : CompressedSparsityPattern) : list (N * N) :=
  flat_map (fun row =>
              map (fun j => (row, csp_column_number csp row j))
                  (count_up (csp_row_length csp row)))
           (count_up (csp_n_rows csp)).

Definition positions_cssp (csp : CompressedSetSparsityPattern) : list (N * N) :=
  flat_map (fun row => map (pair row) (cssp_row csp row))
           (count_up (cssp_n_rows csp)).

(** A list of positions holds each structurally nonzero entry of an
    [m] by [n] matrix once, and nothing else. *)
Definition lists_nonzeros (m n : N) (nz : N -> N -> bool) (l : list (N * N)) : Prop :=
  NoDup l /\ forall i j, In (i, j) l <-> i < m /\ j < n /\ nz i j = true.

(** Whether the entry [e] lies in the chunk [(r, k)] for chunks of [c]. *)
Definition in_chunk (c r k : N) (e : N * N) : bool :=
  (r =? e.1 / c) && (k =? e.2 / c).

(** The number of entries of a row, and of each row. *)
Definition count_row (l : list (N * N)) (row : N) : N :=
  N.of_nat (length (List.filter (fun e => e.1 =? row) l)).

Definition row_counts (m : N) (l : list (N * N)) : list N :=
  map (count_row l) (count_up m).

(** The nonzero positions row by row, columns ascending: the order of the
    loops over a dense matrix. *)
Definition positions_full (m n : N) (nz : N -> N -> bool) : list (N * N) :=
  flat_map (fun row => map (pair row) (List.filter (nz row) (count_up n)))
           (count_up m).

Definition represents_csp (m n : N) (nz : N -> N -> bool)
    (csp : CompressedSparsityPattern) : Prop :=
  csp_n_rows csp = m /\ csp_n_cols csp = n
  /\ lists_nonzeros m n nz (positions_csp csp).

Definition represents_cssp (m n : N) (nz : N -> N -> bool)
    (csp : CompressedSetSparsityPattern) : Prop :=
  cssp_n_rows csp = m /\ cssp_n_cols csp = n
  /\ lists_nonzeros m n nz (positions_cssp csp).

Definition represents_full {number : Type} (nonzero : number -> bool)
    (m n : N) (nz : N -> N -> bool) (matrix : FullMatrix number) : Prop :=
  dim_image matrix = m /\ dim_range matrix = n
  /\ forall i j, i < m -> j < n ->
       exists x, fm_at matrix i j = Ok x /\ nonzero x = nz i j.

(** What the protocol builds from the nonzeros [nz] of an [m] by [n]
    matrix: the chunks of the nonzero positions on top of what [reinit]
    leaves in the wrapped object. *)
Definition built_from (this : ChunkSparsityPattern SP) (m n c : N)
    (optimize_diag : bool) (nz : N -> N -> bool) (p : ChunkSparsityPattern SP) : Prop :=
  rows p = m /\ cols p = n /\ chunk_size p = c
  /\ forall r k,
       sp_exists (sparsity_pattern p) r k
       = existsb (in_chunk c r k) (positions_full m n nz)
         || sp_exists
              (sp_reinit (sparsity_pattern this) (m / c + 1) (UInt.add n c / c)
                 (map (chunk_row_max (row_counts m (positions_full m n nz)) c)
                      (count_up (m / c + 1)))
                 optimize_diag) r k.

(** The protocol with the row lengths counted from the entries first: what
    each [copy_from] does once its loops are written as one pass over the
    entries of its source. *)
Definition fill_counted (this : ChunkSparsityPattern SP) (m n : N)
    (entries : list (N * N)) (chunk_size : N) (optimize_diag : bool)
  : result (ChunkSparsityPattern SP) :=
  entries_per_row ←
    for_each entries (fun e entries_per_row => increment entries_per_row e.1)
             (replicate (N.to_nat m) 0);
  this ← reinit this m n entries_per_row chunk_size optimize_diag;
  this ← for_each entries (fun e this => add this e.1 e.2) this;
  Ok (compress this).

(** The caller's row lengths and insertion sequence: the entry count of
    each row, and every nonzero position in any order, repeats allowed. *)
Definition represents_entries (m n : N) (nz : N -> N -> bool)
    (row_lengths : list N) (entries : list (N * N)) : Prop :=
  (exists l, lists_nonzeros m n nz l /\ row_lengths = row_counts m l)
  /\ forall i j, In (i, j) entries <-> i < m /\ j < n /\ nz i j = true.
End Described.

(** ** Concrete patterns *)

Module Examples.

Definition fresh : ChunkSparsityPattern Mock.t := raw (0, 0, 0) Mock.empty.

Definition get (r : result (ChunkSparsityPattern Mock.t)) : ChunkSparsityPattern Mock.t :=
  match r with
  | Ok p => p
  | _ => fresh
  end.

(** 4 by 4, chunks of 2, the entry (0, 0). *)
Definition P : ChunkSparsityPattern Mock.t :=
  get (fill_from_entries fresh 4 4 [1; 0; 0; 0] [(0, 0)] 2 false).

(** 4 by 4, chunks of 1, no entry. *)
Definition Q : ChunkSparsityPattern Mock.t :=
  get (constructor (0, 0, 0) 4 4 1 1 false).

(** 10 by 10, chunks of 4, the entries (0, 0), (0, 5) and (9, 9). *)
Definition T : ChunkSparsityPattern Mock.t :=
  get (fill_from_entries fresh 10 10 [2; 0; 0; 0; 0; 0; 0; 0; 0; 1]
                         [(0, 0); (0, 5); (9, 9)] 4 false).

(** 0 by 0, chunks of 1. *)
Definition unsized : ChunkSparsityPattern Mock.t :=
  get (constructor (0, 0, 0) 0 0 0 1 false).

(** 6 by 6, chunks of 2, no entry. *)
Definition R : ChunkSparsityPattern Mock.t :=
  get (constructor (0, 0, 0) 6 6 1 2 false).

(** A 2 by 3 matrix with nonzeros at (0, 0), (0, 2) and (1, 1), as a dense
    matrix, as the two compressed patterns (the second one yields the
    columns of row 0 in descending order), and as a caller would insert
    it. *)
Definition nonzeros : list (N * N) := [(0, 0); (0, 2); (1, 1)].

Definition nz (i j : N) : bool := existsb (Mock.is_entry i j) nonzeros.

Definition nonzero (x : Z) : bool := negb (x =? 0)%Z.

Definition matrix : FullMatrix Z :=
  {| val := [5; 0; -7; 0; 3; 0]%Z; dim_range := 3; dim_image := 2 |}.

Definition csp : CompressedSparsityPattern :=
  {| csp_n_rows := 2; csp_n_cols := 3;
     csp_row_length := fun row => nth (N.to_nat row) [2; 1] 0;
     csp_column_number := fun row j =>
       nth (N.to_nat j) (nth (N.to_nat row) [[0; 2]; [1]] []) 0 |}.

Definition cssp : CompressedSetSparsityPattern :=
  {| cssp_n_rows := 2; cssp_n_cols := 3;
     cssp_row := fun row => nth (N.to_nat row) [[2; 0]; [1]] [] |}.

Definition row_lengths : list N := [2; 1].

Definition insertions : list (N * N) := [(1, 1); (0, 2); (0, 0); (0, 2)].

End Examples.

(** ** The remaining member functions *)

(** Modelled from the spec: the further member functions of the coarse
    sparsity structure ([SparsityPattern], not part of these sources) that
    the chunked pattern calls. *)
Class SparsityPatternQueries (SP : Type) : Type := {
  sp_empty : SP -> bool;
  sp_max_entries_per_row : SP -> N;
  sp_symmetrize : SP -> SP;
}.

(** Modelled from the spec: [symmetrize] of the coarse structure ensures
    that [(r, c)] present implies [(c, r)] present, and loses nothing. *)
Class SparsityPatternSymmetrize (SP : Type)
    `{SparsityPatternOps SP} `{SparsityPatternQueries SP} : Prop := {
  sp_symmetrize_symmetric : forall s r c,
    sp_exists (sp_symmetrize s) r c = sp_exists (sp_symmetrize s) c r;
  sp_symmetrize_keeps : forall s r c,
    sp_exists s r c = true -> sp_exists (sp_symmetrize s) r c = true;
}.

Section Members.
Context {SP : Type} `{SparsityPatternOps SP} `{SparsityPatternQueries SP}.

(** [ChunkSparsityPattern (n, max_per_row, chunk_size)] *)
Definition constructor_square (indeterminate : N * N * N) (n max_per_row chunk_size : N)
  : result (ChunkSparsityPattern SP) :=
  reinit_max_per_row (raw indeterminate sp_default) n n max_per_row chunk_size true.

(** [ChunkSparsityPattern (m, row_lengths, chunk_size, optimize_diag)] *)
Definition constructor_square_row_lengths (indeterminate : N * N * N) (m : N)
    (row_lengths : list N) (chunk_size : N) (optimize_diag : bool)
  : result (ChunkSparsityPattern SP) :=
  reinit (raw indeterminate sp_default) m m row_lengths chunk_size optimize_diag.

Definition empty (this : ChunkSparsityPattern SP) : bool :=
  sp_empty (sparsity_pattern this).

Definition max_entries_per_row (this : ChunkSparsityPattern SP) : N :=
  UInt.mul (sp_max_entries_per_row (sparsity_pattern this)) (chunk_size this).

Definition symmetrize (this : ChunkSparsityPattern SP)
  : result (ChunkSparsityPattern SP) :=
  Assert (rows this =? cols this) ExcNotQuadratic ;;
  Ok (with_sparsity_pattern this (sp_symmetrize (sparsity_pattern this))).

Definition print (this : ChunkSparsityPattern SP) (out : ostream) : result ostream :=
  Assert false ExcNotImplemented ;;
  Ok out.

Definition print_gnuplot (this : ChunkSparsityPattern SP) (out : ostream)
  : result ostream :=
  Assert false ExcNotImplemented ;;
  Ok out.

End Members.

(** [operator() (i, j)], the one that is not [const] (lac/full_matrix.h). *)
Definition fm_ref {number : Type} (M : FullMatrix number) (i j : N) : result number :=
  Assert (i <? dim_image M) (ExcInvalidIndex i (dim_image M)) ;;
  Assert (j <? dim_range M) (ExcInvalidIndex j (dim_range M)) ;;
  el M i j.

(** The further member functions on the in-memory object. *)
Module MockQueries.

Definition swap (e : N * N) : N * N := (e.2, e.1).

Definition symmetrize (s : Mock.t) : Mock.t :=
  {| Mock.n_rows := Mock.n_rows s; Mock.n_cols := Mock.n_cols s;
     Mock.entries := Mock.entries s ++ map swap (Mock.entries s) |}.

Definition is_empty (s : Mock.t) : bool :=
  (Mock.n_rows s =? 0) && (Mock.n_cols s =? 0).

Definition max_entries_per_row (s : Mock.t) : N :=
  foldr N.max 0 (map (count_row (Mock.entries s)) (count_up (Mock.n_rows s))).

#[global] Instance queries : SparsityPatternQueries Mock.t := {|
  sp_empty := is_empty;
  sp_max_entries_per_row := max_entries_per_row;
  sp_symmetrize := symmetrize;
|}.

End MockQueries.

(** ** More concrete patterns *)

Module More.

(** 1 by 4294967295, chunks of 2: [n + chunk_size] wraps. *)
Definition wide : ChunkSparsityPattern Mock.t :=
  Examples.get (reinit Examples.fresh 1 4294967295 [0] 2 false).

(** 6 by 6 from the square constructor, chunks of 4, with (0, 5) added. *)
Definition square : ChunkSparsityPattern Mock.t :=
  Examples.get
    (p ← constructor_square (0, 0, 0) 6 2 4; add p 0 5).

(** 10 by 11, chunks of 4: a 3 by 3 grid of chunks. *)
Definition ten_by_eleven : ChunkSparsityPattern Mock.t :=
  Examples.get (constructor (0, 0, 0) 10 11 2 4 false).

(** 1 by 1, chunks of 2147483649. *)
Definition huge_reader : ChunkSparsityPattern Mock.t :=
  Examples.get (constructor (0, 0, 0) 1 1 1 2147483649 false).

(** What [block_write] writes for [Examples.T]. *)
Definition T_bytes : list ascii :=
  match block_write Examples.T sink with
  | Ok out => written out
  | _ => []
  end.

(** [Examples.T] as [huge_reader] reads it back, compressed: 10 by 10,
    chunks of 2147483649, the chunks of [Examples.T]. *)
Definition huge_chunks : ChunkSparsityPattern Mock.t :=
  match block_read huge_reader (source T_bytes) with
  | Ok (p, _) => compress p
  | _ => Examples.fresh
  end.

End More.

(** * Properties *)

(** ** Outcomes and loops *)

Lemma bind_Ok {A B} (f : A -> result B) (a : A) : (Ok a ≫= f) = f a.
Proof. reflexivity. Qed.

Lemma bind_Ok_inv {A B} (m : result A) (f : A -> result B) (b : B) :
  m ≫= f = Ok b -> exists a, m = Ok a /\ f a = Ok b.
Proof. destruct m as [a | e | u]; simpl; intros E; try discriminate E. eauto. Qed.

Lemma Assert_Ok_inv (cond : bool) (exc : exception) (u : unit) :
  Assert cond exc = Ok u -> cond = true.
Proof. destruct cond; simpl; [reflexivity | discriminate]. Qed.

Ltac bind_inv E :=
  let a := fresh "a" in
  let Ea := fresh "E" in
  apply bind_Ok_inv in E; destruct E as (a & Ea & E).

Lemma wrap_small (x : N) : x < UInt.modulus -> UInt.wrap x = x.
Proof. intros Hx. unfold UInt.wrap. now apply N.mod_small. Qed.

Lemma wrap_le (x : N) : UInt.wrap x <= x.
Proof. unfold UInt.wrap. apply N.Div0.mod_le. Qed.

Lemma wrap_lt (x : N) : UInt.wrap x < UInt.modulus.
Proof. unfold UInt.wrap. apply N.mod_lt. discriminate. Qed.

Lemma div_Ok (a c : N) : 1 <= c -> UInt.div a c = Ok (a / c).
Proof.
  intros Hc. unfold UInt.div.
  destruct (N.eqb_spec c 0) as [-> | _]; [lia | reflexivity].
Qed.

Lemma div_Ok_inv (a c q : N) : UInt.div a c = Ok q -> 1 <= c /\ q = a / c.
Proof.
  unfold UInt.div. destruct (N.eqb_spec c 0) as [-> | Hc]; [discriminate |].
  intros [= <-]. split; [lia | reflexivity].
Qed.

Lemma for_range_inv {A} (P : N -> A -> Prop) (body : N -> A -> result A) :
  forall count first a,
    P first a ->
    (forall i a, first <= i < first + N.of_nat count -> P i a ->
                 exists a', body i a = Ok a' /\ P (i + 1) a') ->
    exists a', for_range count first body a = Ok a' /\ P (first + N.of_nat count) a'.
Proof.
  induction count as [| k IH]; intros first a H0 Hstep; simpl.
  - exists a. split; [reflexivity |]. now replace (first + N.of_nat 0) with first by lia.
  - destruct (Hstep first a) as (a1 & E1 & H1); [lia | assumption |].
    rewrite E1, bind_Ok.
    destruct (IH (first + 1) a1 H1) as (a2 & E2 & H2).
    + intros i b Hi Hb. apply Hstep; [lia | assumption].
    + exists a2. split; [assumption |].
      now replace (first + N.of_nat (S k)) with (first + 1 + N.of_nat k) by lia.
Qed.

(** The loop rule: an invariant that each turn keeps holds when the loop is
    left, and the loop is left normally. *)
Lemma for_upto_inv {A} (P : N -> A -> Prop) (m : N) (body : N -> A -> result A) (a : A) :
  P 0 a ->
  (forall i a, i < m -> P i a -> exists a', body i a = Ok a' /\ P (i + 1) a') ->
  exists a', for_upto m body a = Ok a' /\ P m a'.
Proof.
  intros H0 Hstep. unfold for_upto.
  destruct (for_range_inv P body (N.to_nat m) 0 a H0) as (a' & E & Ha').
  - intros i b Hi Hb. apply Hstep; [lia | assumption].
  - exists a'. split; [assumption |]. now replace m with (0 + N.of_nat (N.to_nat m)) by lia.
Qed.

Lemma for_range_each {A} (body : N -> A -> result A) :
  forall count first a,
    for_range count first body a
    = for_each (map N.of_nat (seq (N.to_nat first) count)) body a.
Proof.
  induction count as [| k IH]; intros first a; simpl; [reflexivity |].
  rewrite N2Nat.id. destruct (body first a) as [a1 | e | u]; simpl; try reflexivity.
  rewrite IH. now replace (N.to_nat (first + 1)) with (S (N.to_nat first)) by lia.
Qed.

Lemma for_upto_each {A} (m : N) (body : N -> A -> result A) (a : A) :
  for_upto m body a = for_each (count_up m) body a.
Proof. unfold for_upto, count_up. now rewrite for_range_each. Qed.

Lemma for_each_app {A B} (body : B -> A -> result A) (l1 l2 : list B) (a : A) :
  for_each (l1 ++ l2) body a = (for_each l1 body a ≫= for_each l2 body).
Proof.
  revert a. induction l1 as [| x l1 IH]; intros a; simpl; [reflexivity |].
  destruct (body x a) as [a1 | e | u]; simpl; [apply IH | reflexivity | reflexivity].
Qed.

Lemma for_each_ext {A B} (f g : B -> A -> result A) (l : list B) (a : A) :
  (forall x b, In x l -> f x b = g x b) -> for_each l f a = for_each l g a.
Proof.
  revert a. induction l as [| x l IH]; intros a Hfg; simpl; [reflexivity |].
  rewrite (Hfg x a) by now left.
  destruct (g x a) as [a1 | e | u]; simpl; try reflexivity.
  apply IH. intros y b Hy. apply Hfg. now right.
Qed.

Lemma for_each_map {A B C} (g : B -> C) (body : C -> A -> result A)
    (l : list B) (a : A) :
  for_each (map g l) body a = for_each l (fun x b => body (g x) b) a.
Proof.
  revert a. induction l as [| x l IH]; intros a; simpl; [reflexivity |].
  destruct (body (g x) a); simpl; auto.
Qed.

(** Two nested loops run their body over the pairs of the outer and the
    inner index, row by row. *)
Lemma for_each_nested {A B C D} (inner : B -> list C) (g : B -> C -> D)
    (body : D -> A -> result A) (l : list B) (a : A) :
  for_each l (fun x b => for_each (inner x) (fun y b => body (g x y) b) b) a
  = for_each (flat_map (fun x => map (g x) (inner x)) l) body a.
Proof.
  revert a. induction l as [| x l IH]; intros a; simpl; [reflexivity |].
  rewrite for_each_app, for_each_map.
  destruct (for_each (inner x) _ a); simpl; auto.
Qed.

Lemma for_each_filter {A B} (keep : B -> bool) (body : B -> A -> result A)
    (l : list B) (a : A) :
  for_each l (fun x b => if keep x then body x b else Ok b) a
  = for_each (List.filter keep l) body a.
Proof.
  revert a. induction l as [| x l IH]; intros a; simpl; [reflexivity |].
  destruct (keep x); simpl; [| apply IH].
  destruct (body x a); simpl; auto.
Qed.

Lemma count_up_length (m : N) : length (count_up m) = N.to_nat m.
Proof. unfold count_up. now rewrite length_map, length_seq. Qed.

Lemma count_up_lookup (m : N) (i : nat) :
  (i < N.to_nat m)%nat -> count_up m !! i = Some (N.of_nat i).
Proof.
  intros Hi. unfold count_up. rewrite list_lookup_fmap.
  now rewrite lookup_seq_lt.
Qed.

Lemma count_up_In (m i : N) : In i (count_up m) <-> i < m.
Proof.
  unfold count_up. rewrite in_map_iff. split.
  - intros (k & <- & Hk). apply in_seq in Hk. lia.
  - intros Hi. exists (N.to_nat i). split; [lia |]. apply in_seq. lia.
Qed.

Lemma count_up_succ (m : N) : count_up (m + 1) = count_up m ++ [m].
Proof.
  unfold count_up. replace (N.to_nat (m + 1)) with (S (N.to_nat m)) by lia.
  rewrite seq_S, map_app. simpl. now rewrite N2Nat.id.
Qed.

Lemma count_up_NoDup (m : N) : NoDup (count_up m).
Proof.
  unfold count_up. apply NoDup_fmap_2; [| apply NoDup_seq].
  intros a b E. lia.
Qed.

(** ** The row lengths of the chunk rows *)

Lemma foldr_max_snoc (l : list N) (x : N) :
  foldr N.max 0 (l ++ [x]) = N.max (foldr N.max 0 l) x.
Proof. induction l as [| y l IH]; simpl; [lia | rewrite IH; lia]. Qed.

Lemma foldr_max_upper (l : list N) (x : N) : In x l -> x <= foldr N.max 0 l.
Proof.
  induction l as [| y l IH]; simpl; [tauto |].
  intros [-> | Hx]; [lia | specialize (IH Hx); lia].
Qed.

Lemma foldr_max_attained (l : list N) : foldr N.max 0 l = 0 \/ In (foldr N.max 0 l) l.
Proof.
  induction l as [| y l IH]; simpl; [now left |].
  destruct (N.max_spec y (foldr N.max 0 l)) as [[_ ->] | [_ ->]].
  - destruct IH as [-> | IH]; [now left | right; now right].
  - right. now left.
Qed.

Lemma indexed_snoc (l : list N) (x : N) :
  indexed (l ++ [x]) = indexed l ++ [(N.of_nat (length l), x)].
Proof.
  unfold indexed. rewrite length_app. simpl.
  replace (N.of_nat (length l + 1)) with (N.of_nat (length l) + 1) by lia.
  rewrite count_up_succ. rewrite zip_with_app; [reflexivity |].
  rewrite count_up_length. lia.
Qed.

Lemma indexed_In (l : list N) (i x : N) :
  In (i, x) (indexed l) <-> l !! N.to_nat i = Some x.
Proof.
  induction l as [| y l IH] using rev_ind.
  - simpl. split; [tauto | discriminate].
  - rewrite indexed_snoc, in_app_iff, IH. simpl. split.
    + intros [Hl | [[= <- <-] | []]].
      * rewrite lookup_app_l; [assumption |]. now apply lookup_lt_Some in Hl.
      * rewrite Nat2N.id. now rewrite list_lookup_middle.
    + intros Hl. destruct (decide (N.to_nat i < length l)%nat) as [Hi | Hi].
      * left. now rewrite lookup_app_l in Hl.
      * right. left. rewrite lookup_app_r in Hl by lia.
        destruct (N.to_nat i - length l)%nat as [| d] eqn:Ed; simpl in Hl; [| discriminate].
        injection Hl as ->. f_equal. lia.
Qed.

Lemma chunk_row_max_nil (c k : N) : chunk_row_max [] c k = 0.
Proof. reflexivity. Qed.

Lemma chunk_row_max_snoc (l : list N) (x c k : N) :
  chunk_row_max (l ++ [x]) c k
  = if N.of_nat (length l) / c =? k then N.max (chunk_row_max l c k) x
    else chunk_row_max l c k.
Proof.
  unfold chunk_row_max. rewrite indexed_snoc, List.filter_app. simpl.
  unfold in_chunk_row at 2. simpl.
  destruct (N.of_nat (length l) / c =? k).
  - rewrite map_app. simpl. apply foldr_max_snoc.
  - now rewrite app_nil_r.
Qed.

(** [chunk_row_max] is the maximum over the rows of the chunk row: it bounds
    each of them, and it is one of them unless it is zero. *)
Lemma chunk_row_max_is_max (row_lengths : list N) (c k : N) :
  (forall i x, row_lengths !! N.to_nat i = Some x -> i / c = k ->
               x <= chunk_row_max row_lengths c k)
  /\ (chunk_row_max row_lengths c k = 0
      \/ exists i, row_lengths !! N.to_nat i = Some (chunk_row_max row_lengths c k)
                   /\ i / c = k).
Proof.
  unfold chunk_row_max. split.
  - intros i x Hi Hk. apply foldr_max_upper. apply in_map_iff.
    exists (i, x). split; [reflexivity |]. apply List.filter_In. split.
    + now apply indexed_In.
    + unfold in_chunk_row. simpl. now apply N.eqb_eq.
  - destruct (foldr_max_attained
                (map snd (List.filter (in_chunk_row c k) (indexed row_lengths))))
      as [E | Hin]; [now left | right].
    apply in_map_iff in Hin. destruct Hin as ([i x] & Ex & Hin). simpl in Ex.
    apply List.filter_In in Hin. destruct Hin as [Hin Hk].
    exists i. split.
    + rewrite <- Ex. now apply indexed_In.
    + unfold in_chunk_row in Hk. simpl in Hk. now apply N.eqb_eq.
Qed.

Lemma chunk_row_max_le_sum (row_lengths : list N) (c k : N) :
  chunk_row_max row_lengths c k <= chunk_row_sum row_lengths c k.
Proof.
  unfold chunk_row_max, chunk_row_sum.
  induction (map snd (List.filter (in_chunk_row c k) (indexed row_lengths)))
    as [| x l IH]; simpl; lia.
Qed.

(** Two rows of lengths 2 and 3 in one chunk row: the maximum is 3, the
    sum would be 5. *)
Example chunk_row_max_is_not_the_sum :
  chunk_row_max [2; 3] 2 0 = 3 /\ chunk_row_sum [2; 3] 2 0 = 5.
Proof. split; reflexivity. Qed.

Lemma chunk_count_Ok (m c : N) :
  1 <= c -> m + c < UInt.modulus -> chunk_count m c = Ok (m / c + 1).
Proof.
  intros Hc Hm. unfold chunk_count, UInt.add. rewrite wrap_small by assumption.
  rewrite div_Ok by assumption. f_equal.
  replace (m + c) with (m + 1 * c) by lia. rewrite N.div_add by lia. reflexivity.
Qed.

Lemma chunk_count_any (n c : N) :
  1 <= c -> chunk_count n c = Ok (UInt.add n c / c).
Proof. intros Hc. unfold chunk_count. now apply div_Ok. Qed.

Lemma chunk_count_zero (m : N) : chunk_count m 0 = Fault DivisionByZero.
Proof. reflexivity. Qed.

Lemma at_Ok {A} (v : list A) (i : N) (x : A) : v !! N.to_nat i = Some x -> at_ v i = Ok x.
Proof. intros E. unfold at_. now rewrite E. Qed.

Lemma store_Ok {A} (v : list A) (i : N) (x : A) :
  (N.to_nat i < length v)%nat -> store v i x = Ok (<[N.to_nat i := x]> v).
Proof.
  intros Hi. unfold store. destruct (Nat.ltb_spec (N.to_nat i) (length v)); [reflexivity | lia].
Qed.

(** One turn of the loop in [reinit] takes the maxima over the first [i]
    rows to the maxima over the first [i + 1] rows. *)
Lemma chunk_row_lengths_body_step (row_lengths : list N) (c mc i : N) :
  1 <= c -> i / c < mc -> (N.to_nat i < length row_lengths)%nat ->
  chunk_row_lengths_body row_lengths c i
    (map (chunk_row_max (take (N.to_nat i) row_lengths) c) (count_up mc))
  = Ok (map (chunk_row_max (take (N.to_nat (i + 1)) row_lengths) c) (count_up mc)).
Proof.
  intros Hc Hk Hi. unfold chunk_row_lengths_body.
  rewrite div_Ok, bind_Ok by assumption.
  destruct (lookup_lt_is_Some_2 row_lengths (N.to_nat i) Hi) as [x Ex].
  set (f := chunk_row_max (take (N.to_nat i) row_lengths) c).
  assert (Ek : map f (count_up mc) !! N.to_nat (i / c) = Some (f (i / c))).
  { rewrite list_lookup_fmap, count_up_lookup by lia. simpl. now rewrite N2Nat.id. }
  rewrite (at_Ok _ _ _ Ek), bind_Ok, (at_Ok _ _ _ Ex), bind_Ok.
  rewrite store_Ok by (rewrite length_map, count_up_length; lia).
  f_equal. apply list_eq. intros j.
  replace (N.to_nat (i + 1)) with (S (N.to_nat i)) by lia.
  rewrite (take_S_r _ _ _ Ex).
  destruct (decide (j < N.to_nat mc)%nat) as [Hj | Hj].
  - rewrite list_lookup_fmap, count_up_lookup by assumption. simpl.
    rewrite chunk_row_max_snoc, length_take, Nat.min_l by lia. rewrite N2Nat.id.
    destruct (N.eqb_spec (i / c) (N.of_nat j)) as [E | E].
    + replace j with (N.to_nat (i / c)) by lia.
      rewrite list_lookup_insert_eq by (rewrite length_map, count_up_length; lia).
      subst f. now rewrite N2Nat.id.
    + rewrite list_lookup_insert_ne by lia.
      rewrite list_lookup_fmap, count_up_lookup by assumption. reflexivity.
  - rewrite !lookup_ge_None_2; [reflexivity | |].
    + rewrite length_map, count_up_length. lia.
    + rewrite length_insert, length_map, count_up_length. lia.
Qed.

Lemma chunk_row_lengths_loop (row_lengths : list N) (c m : N) :
  N.of_nat (length row_lengths) = m -> 1 <= c ->
  for_upto m (chunk_row_lengths_body row_lengths c)
    (replicate (N.to_nat (m / c + 1)) 0)
  = Ok (map (chunk_row_max row_lengths c) (count_up (m / c + 1))).
Proof.
  intros Hlen Hc.
  destruct (for_upto_inv
    (fun i v => v = map (chunk_row_max (take (N.to_nat i) row_lengths) c)
                        (count_up (m / c + 1)))
    m (chunk_row_lengths_body row_lengths c)
    (replicate (N.to_nat (m / c + 1)) 0)) as (v & E & Hv).
  - simpl. apply list_eq. intros j.
    destruct (decide (j < N.to_nat (m / c + 1))%nat) as [Hj | Hj].
    + rewrite lookup_replicate_2 by assumption.
      rewrite list_lookup_fmap, count_up_lookup by assumption. reflexivity.
    + rewrite !lookup_ge_None_2; [reflexivity | |].
      * rewrite length_map, count_up_length. lia.
      * rewrite length_replicate. lia.
  - intros i v Hi ->. eexists. split; [| reflexivity].
    apply chunk_row_lengths_body_step; [assumption | | lia].
    assert (i / c <= m / c) by (apply N.Div0.div_le_mono; lia). lia.
  - rewrite E, Hv. rewrite firstn_all2 by lia. reflexivity.
Qed.

(** ** [reinit] *)

Section Reinit.
Context {SP : Type} `{SparsityPatternOps SP}.

Lemma reinit_Ok (this : ChunkSparsityPattern SP) (m n : N) (row_lengths : list N)
    (c : N) (optimize_diag : bool) :
  N.of_nat (length row_lengths) = m -> 1 <= c -> m + c < UInt.modulus ->
  reinit this m n row_lengths c optimize_diag
  = Ok {| rows := m; cols := n; chunk_size := c;
          sparsity_pattern :=
            sp_reinit (sparsity_pattern this) (m / c + 1) (UInt.add n c / c)
                      (map (chunk_row_max row_lengths c) (count_up (m / c + 1)))
                      optimize_diag |}.
Proof.
  intros Hlen Hc Hm. unfold reinit, reinit_slice.
  rewrite Hlen, N.eqb_refl. simpl Assert. rewrite bind_Ok.
  rewrite (chunk_count_Ok m c), bind_Ok by assumption.
  rewrite (chunk_count_any n c), bind_Ok by assumption.
  rewrite chunk_row_lengths_loop by assumption.
  reflexivity.
Qed.

Lemma reinit_Ok_inv (this p : ChunkSparsityPattern SP) (m n : N)
    (row_lengths : list N) (c : N) (optimize_diag : bool) :
  reinit this m n row_lengths c optimize_diag = Ok p ->
  N.of_nat (length row_lengths) = m /\ 1 <= c
  /\ rows p = m /\ cols p = n /\ chunk_size p = c.
Proof.
  unfold reinit, reinit_slice. intros E.
  bind_inv E. apply Assert_Ok_inv in E0. apply N.eqb_eq in E0.
  bind_inv E. apply div_Ok_inv in E1. destruct E1 as [Hc _].
  bind_inv E. bind_inv E. injection E as <-. simpl. auto.
Qed.

Lemma reinit_zero_chunk_size (this : ChunkSparsityPattern SP) (m n : N)
    (row_lengths : list N) (optimize_diag : bool) :
  N.of_nat (length row_lengths) = m ->
  reinit this m n row_lengths 0 optimize_diag = Fault DivisionByZero.
Proof.
  intros Hlen. unfold reinit, reinit_slice. now rewrite Hlen, N.eqb_refl.
Qed.

(** C4: [reinit (m, n, row_lengths, c, ...)] with [row_lengths] of length
    [m] hands the wrapped object, as the length of each chunk row [k], the
    maximum of [row_lengths[i]] over the rows [i] with [floor (i / c) = k]:
    a bound for each of these rows that one of them attains (zero when the
    chunk row has none), and never more than their sum. *)
Theorem reinit_chunk_row_capacity (this : ChunkSparsityPattern SP) (m n : N)
    (row_lengths : list N) (c : N) (optimize_diag : bool) :
  N.of_nat (length row_lengths) = m -> 1 <= c -> m + c < UInt.modulus ->
  reinit this m n row_lengths c optimize_diag
  = Ok {| rows := m; cols := n; chunk_size := c;
          sparsity_pattern :=
            sp_reinit (sparsity_pattern this) (m / c + 1) (UInt.add n c / c)
                      (map (chunk_row_max row_lengths c) (count_up (m / c + 1)))
                      optimize_diag |}
  /\ forall k,
       (forall i x, row_lengths !! N.to_nat i = Some x -> i / c = k ->
                    x <= chunk_row_max row_lengths c k)
       /\ (chunk_row_max row_lengths c k = 0
           \/ exists i, row_lengths !! N.to_nat i
                        = Some (chunk_row_max row_lengths c k) /\ i / c = k)
       /\ chunk_row_max row_lengths c k <= chunk_row_sum row_lengths c k.
Proof.
  intros Hlen Hc Hm. split; [now apply reinit_Ok |].
  intros k. destruct (chunk_row_max_is_max row_lengths c k) as [Hup Hat].
  split; [exact Hup |]. split; [exact Hat |]. apply chunk_row_max_le_sum.
Qed.

(** C10: the default constructor and the copy constructor call [reinit]
    with a chunk size of zero, where computing the number of chunks divides
    by zero; [reinit] returns only for a chunk size of at least one. *)
Theorem constructors_divide_by_zero :
  (forall optimize_diag_default indeterminate,
      default_constructor (SP := SP) optimize_diag_default indeterminate
      = Fault DivisionByZero)
  /\ (forall indeterminate (s : ChunkSparsityPattern SP) sp,
         sp_copy_construct (sparsity_pattern s) = Some sp ->
         rows s = 0 -> cols s = 0 ->
         copy_constructor indeterminate s = Fault DivisionByZero)
  /\ (forall (this : ChunkSparsityPattern SP) m n row_lengths optimize_diag,
         N.of_nat (length row_lengths) = m ->
         reinit this m n row_lengths 0 optimize_diag = Fault DivisionByZero)
  /\ (forall (this p : ChunkSparsityPattern SP) m n row_lengths c optimize_diag,
         reinit this m n row_lengths c optimize_diag = Ok p -> 1 <= c).
Proof.
  split; [| split; [| split]].
  - intros od [[r c] s]. reflexivity.
  - intros [r c] s sp Esp Hr Hc. unfold copy_constructor.
    rewrite Esp, Hr, Hc. reflexivity.
  - intros this m n rl od Hlen. now apply reinit_zero_chunk_size.
  - intros this p m n rl c od E. now apply reinit_Ok_inv in E.
Qed.

(** C9: copying from a pattern with [rows != 0] or [cols != 0] fails with a
    precondition violation, in the copy constructor and in the assignment;
    the assignment returns, and the copy constructor gets past its checks,
    only for a source with [rows = 0] and [cols = 0]. *)
Theorem copy_only_from_unsized (s : ChunkSparsityPattern SP) :
  (rows s <> 0 \/ cols s <> 0 ->
     (forall indeterminate,
         exists e, copy_constructor indeterminate s = Throw e
                   /\ precondition_violation e = true)
     /\ (forall this,
         exists e, assign this s = Throw e /\ precondition_violation e = true))
  /\ (forall this p, assign this s = Ok p -> rows s = 0 /\ cols s = 0)
  /\ (forall indeterminate,
         (forall e, copy_constructor indeterminate s <> Throw e) ->
         rows s = 0 /\ cols s = 0).
Proof.
  assert (Hcopy : forall indeterminate,
             rows s <> 0 \/ cols s <> 0 ->
             copy_constructor indeterminate s = Throw ExcInvalidConstructorCall).
  { intros [r c] Hs. unfold copy_constructor.
    destruct (sp_copy_construct (sparsity_pattern s)); [| reflexivity].
    destruct (N.eqb_spec (rows s) 0) as [Hr | Hr]; [| reflexivity].
    destruct (N.eqb_spec (cols s) 0) as [Hc | Hc]; [| reflexivity].
    destruct Hs; contradiction. }
  split; [| split].
  - intros Hs. split.
    + intros ind. exists ExcInvalidConstructorCall. split; [now apply Hcopy | reflexivity].
    + intros this. exists ExcInvalidConstructorCall. split; [| reflexivity].
      unfold assign.
      destruct (N.eqb_spec (rows s) 0) as [Hr | Hr]; [| reflexivity].
      destruct (N.eqb_spec (cols s) 0) as [Hc | Hc]; [| reflexivity].
      destruct Hs; contradiction.
  - intros this p E. unfold assign in E.
    bind_inv E. apply Assert_Ok_inv in E0. bind_inv E. apply Assert_Ok_inv in E1.
    apply N.eqb_eq in E0, E1. auto.
  - intros ind Hno.
    destruct (N.eqb_spec (rows s) 0) as [Hr | Hr];
      [destruct (N.eqb_spec (cols s) 0) as [Hc | Hc]; [auto |] |];
      exfalso; apply (Hno ExcInvalidConstructorCall); apply Hcopy; auto.
Qed.

End Reinit.

(** ** Beyond the range of [unsigned int] *)

Lemma chunk_row_lengths_body_cases (row_lengths : list N) (c i : N) (v : list N) :
  1 <= c -> (N.to_nat i < length row_lengths)%nat ->
  (i / c < N.of_nat (length v) ->
   exists v', chunk_row_lengths_body row_lengths c i v = Ok v' /\ length v' = length v)
  /\ (N.of_nat (length v) <= i / c ->
      chunk_row_lengths_body row_lengths c i v = Fault VectorSubscript).
Proof.
  intros Hc Hi. unfold chunk_row_lengths_body. rewrite div_Ok, bind_Ok by assumption.
  generalize (i / c). intros k.
  split; intros Hk.
  - destruct (lookup_lt_is_Some_2 v (N.to_nat k)) as [a Ea]; [lia |].
    destruct (lookup_lt_is_Some_2 row_lengths (N.to_nat i) Hi) as [b Eb].
    rewrite (at_Ok _ _ _ Ea), bind_Ok, (at_Ok _ _ _ Eb), bind_Ok.
    rewrite store_Ok by lia. eexists. split; [reflexivity | apply length_insert].
  - assert (E : at_ v k = Fault VectorSubscript)
      by (unfold at_; now rewrite lookup_ge_None_2 by lia).
    now rewrite E.
Qed.

(** The loop of [reinit] runs out of [chunk_row_lengths] as soon as a row
    belongs to a chunk row the vector does not have. *)
Lemma chunk_row_lengths_loop_faults (row_lengths : list N) (c : N) :
  1 <= c ->
  forall count first v,
    first + N.of_nat count <= N.of_nat (length row_lengths) ->
    (exists i, first <= i < first + N.of_nat count /\ N.of_nat (length v) <= i / c) ->
    for_range count first (chunk_row_lengths_body row_lengths c) v
    = Fault VectorSubscript.
Proof.
  intros Hc. induction count as [| k IH]; intros first v Hlen (i & Hi & Hbad); [lia |].
  cbn [for_range].
  destruct (chunk_row_lengths_body_cases row_lengths c first v Hc) as [Hgood Hfault];
    [lia |].
  destruct (N.lt_ge_cases (first / c) (N.of_nat (length v))) as [Hk | Hk].
  - destruct (Hgood Hk) as (v' & -> & Hlen'). rewrite bind_Ok.
    apply IH; [lia |]. exists i. rewrite Hlen'. split; [| exact Hbad].
    assert (i <> first) by (intros ->; lia). lia.
  - now rewrite (Hfault Hk).
Qed.

(** When [m + chunk_size] does not fit an [unsigned int], [reinit] computes
    too few chunk rows and subscripts [chunk_row_lengths] out of range. *)
Lemma reinit_beyond_unsigned {SP : Type} `{SparsityPatternOps SP}
    (this : ChunkSparsityPattern SP) (m n : N) (row_lengths : list N) (c : N)
    (optimize_diag : bool) :
  N.of_nat (length row_lengths) = m -> 1 <= c ->
  m < UInt.modulus -> c < UInt.modulus -> UInt.modulus <= m + c ->
  reinit this m n row_lengths c optimize_diag = Fault VectorSubscript.
Proof.
  intros Hlen Hc Hm Hcm Hover. unfold reinit, reinit_slice.
  rewrite Hlen, N.eqb_refl. cbn [Assert mbind result_bind].
  rewrite (chunk_count_any m c), (chunk_count_any n c) by assumption.
  cbn [mbind result_bind]. unfold for_upto.
  rewrite (chunk_row_lengths_loop_faults row_lengths c Hc); [reflexivity | lia |].
  exists (m - 1). split; [lia |].
  rewrite length_replicate, N2Nat.id.
  assert (Ew : UInt.add m c = m + c - UInt.modulus).
  { unfold UInt.add, UInt.wrap. symmetry. apply (N.mod_unique _ _ 1); lia. }
  rewrite Ew. apply N.Div0.div_le_mono. lia.
Qed.

(** ** [add], [exists], [bandwidth] *)

Section Entries.
Context {SP : Type} `{SparsityPatternLaws SP}.

Implicit Types p q : ChunkSparsityPattern SP.

Lemma same_pattern_refl p : same_pattern p p.
Proof. unfold same_pattern. auto. Qed.

Lemma same_pattern_sym p q : same_pattern p q -> same_pattern q p.
Proof. unfold same_pattern. intros (-> & -> & -> & E). auto. Qed.

Lemma same_pattern_trans p q r :
  same_pattern p q -> same_pattern q r -> same_pattern p r.
Proof.
  unfold same_pattern. intros (-> & -> & -> & E1) (-> & -> & -> & E2).
  repeat split; try reflexivity. intros a b. now rewrite E1.
Qed.

Lemma same_pattern_exists p q :
  same_pattern p q -> forall i j, exists_ p i j = exists_ q i j.
Proof.
  intros (Er & Ec & Es & E) i j. unfold exists_. rewrite Er, Ec, Es.
  destruct (Assert (i <? rows q) _); simpl; try reflexivity.
  destruct (Assert (j <? cols q) _); simpl; try reflexivity.
  destruct (UInt.div i (chunk_size q)); simpl; try reflexivity.
  destruct (UInt.div j (chunk_size q)); simpl; try reflexivity.
  now rewrite E.
Qed.

Lemma add_Ok p (i j : N) :
  1 <= chunk_size p -> i < rows p -> j < cols p ->
  add p i j
  = Ok (with_sparsity_pattern p
          (sp_add (sparsity_pattern p) (i / chunk_size p) (j / chunk_size p))).
Proof.
  intros Hc Hi Hj. unfold add.
  apply N.ltb_lt in Hi, Hj. rewrite Hi, Hj. simpl Assert. rewrite !bind_Ok.
  now rewrite !div_Ok, !bind_Ok by assumption.
Qed.

Lemma add_Throw p (i j : N) :
  rows p <= i \/ cols p <= j ->
  exists e, add p i j = Throw e /\ precondition_violation e = true.
Proof.
  intros Hij. unfold add.
  destruct (N.ltb_spec i (rows p)) as [Hi | Hi]; simpl.
  - destruct (N.ltb_spec j (cols p)) as [Hj | Hj]; simpl; [lia |].
    now exists (ExcInvalidIndex j (cols p)).
  - now exists (ExcInvalidIndex i (rows p)).
Qed.

Lemma exists_Ok p (i j : N) :
  1 <= chunk_size p -> i < rows p -> j < cols p ->
  exists_ p i j
  = Ok (sp_exists (sparsity_pattern p) (i / chunk_size p) (j / chunk_size p)).
Proof.
  intros Hc Hi Hj. unfold exists_.
  apply N.ltb_lt in Hi, Hj. rewrite Hi, Hj. simpl Assert. rewrite !bind_Ok.
  now rewrite !div_Ok, !bind_Ok by assumption.
Qed.

(** C5: [add (i, j)] fails with a precondition violation exactly when
    [i >= rows] or [j >= cols]; in range it inserts the chunk
    [(floor (i / c), floor (j / c))] into the wrapped object, and a second
    [add (i, j)] leaves a pattern that cannot be told from the first:
    same size, same chunk size, the same chunks present, the same answer
    of [exists] everywhere. *)
Theorem add_in_range_inserts_once p (i j : N) :
  1 <= chunk_size p ->
  (rows p <= i \/ cols p <= j <->
   exists e, add p i j = Throw e /\ precondition_violation e = true)
  /\ (i < rows p -> j < cols p ->
      exists p1 p2,
        add p i j = Ok p1
        /\ p1 = with_sparsity_pattern p
                  (sp_add (sparsity_pattern p) (i / chunk_size p) (j / chunk_size p))
        /\ sp_exists (sparsity_pattern p1) (i / chunk_size p) (j / chunk_size p) = true
        /\ add p1 i j = Ok p2
        /\ same_pattern p2 p1
        /\ forall i' j', exists_ p2 i' j' = exists_ p1 i' j').
Proof.
  intros Hc. split.
  - split; [apply add_Throw |].
    intros (e & E & _).
    destruct (N.lt_ge_cases i (rows p)) as [Hi | Hi]; [| now left].
    destruct (N.lt_ge_cases j (cols p)) as [Hj | Hj]; [| now right].
    rewrite add_Ok in E by assumption. discriminate E.
  - intros Hi Hj.
    set (p1 := with_sparsity_pattern p
                 (sp_add (sparsity_pattern p) (i / chunk_size p) (j / chunk_size p))).
    assert (E2 : add p1 i j
                 = Ok (with_sparsity_pattern p1
                         (sp_add (sparsity_pattern p1) (i / chunk_size p1)
                                 (j / chunk_size p1)))) by now apply add_Ok.
    assert (Hsame : same_pattern
                      (with_sparsity_pattern p1
                         (sp_add (sparsity_pattern p1) (i / chunk_size p1)
                                 (j / chunk_size p1))) p1).
    { repeat split; try reflexivity. intros r c. simpl.
      rewrite !sp_exists_add.
      destruct ((r =? i / chunk_size p) && (c =? j / chunk_size p)); reflexivity. }
    eexists p1, _. split; [now apply add_Ok |]. split; [reflexivity |]. split.
    { simpl. now rewrite sp_exists_add, !N.eqb_refl. }
    split; [exact E2 |]. split; [exact Hsame |].
    now apply same_pattern_exists.
Qed.

(** C6: after [add (i1, j1)], [exists (i2, j2)] is true for every in-range
    [(i2, j2)] of the same chunk; and [exists (i, j)] answers whether the
    wrapped object holds the chunk [(floor (i / c), floor (j / c))]. *)
Theorem exists_reads_the_chunk p :
  1 <= chunk_size p ->
  (forall i1 j1 i2 j2,
      i1 < rows p -> j1 < cols p -> i2 < rows p -> j2 < cols p ->
      i1 / chunk_size p = i2 / chunk_size p ->
      j1 / chunk_size p = j2 / chunk_size p ->
      exists p', add p i1 j1 = Ok p' /\ exists_ p' i2 j2 = Ok true)
  /\ (forall i j,
      i < rows p -> j < cols p ->
      exists_ p i j
      = Ok (sp_exists (sparsity_pattern p) (i / chunk_size p) (j / chunk_size p))).
Proof.
  intros Hc. split.
  - intros i1 j1 i2 j2 Hi1 Hj1 Hi2 Hj2 Ei Ej.
    eexists. split; [now apply add_Ok |].
    rewrite exists_Ok by assumption. simpl.
    now rewrite sp_exists_add, Ei, Ej, !N.eqb_refl.
  - intros i j Hi Hj. now apply exists_Ok.
Qed.

(** C8, as the code has it: for a chunk size of at least one,
    [bandwidth ()] is the smaller of
    [coarse bandwidth * chunk_size + (chunk_size - 1)], computed in
    [unsigned int] and so reduced modulo [2 ^ 32], and [max (rows, cols)].
    As long as the first of the two fits an [unsigned int] this is the
    smaller of [coarse bandwidth * chunk_size + (chunk_size - 1)] and
    [max (rows, cols)], and it is never more than that. *)
Theorem bandwidth_is_clamped p :
  1 <= chunk_size p ->
  bandwidth p
  = N.min (UInt.wrap (sp_bandwidth (sparsity_pattern p) * chunk_size p
                      + (chunk_size p - 1)))
          (N.max (rows p) (cols p))
  /\ (sp_bandwidth (sparsity_pattern p) * chunk_size p + (chunk_size p - 1)
      < UInt.modulus ->
      bandwidth p
      = N.min (sp_bandwidth (sparsity_pattern p) * chunk_size p + (chunk_size p - 1))
              (N.max (rows p) (cols p)))
  /\ bandwidth p
     <= N.min (sp_bandwidth (sparsity_pattern p) * chunk_size p + (chunk_size p - 1))
              (N.max (rows p) (cols p)).
Proof.
  intros Hc.
  assert (E : bandwidth p
              = N.min (UInt.wrap (sp_bandwidth (sparsity_pattern p) * chunk_size p
                                  + (chunk_size p - 1)))
                      (N.max (rows p) (cols p))).
  { unfold bandwidth, n_rows, n_cols, UInt.add, UInt.mul, UInt.sub, UInt.wrap.
    f_equal.
    replace (chunk_size p + UInt.modulus - 1)
      with (chunk_size p - 1 + 1 * UInt.modulus) by lia.
    rewrite N.Div0.mod_add. now rewrite <- N.Div0.add_mod. }
  split; [exact E |]. split.
  - intros Hfit. rewrite E. now rewrite wrap_small by assumption.
  - rewrite E.
    pose proof (wrap_le (sp_bandwidth (sparsity_pattern p) * chunk_size p
                         + (chunk_size p - 1))).
    lia.
Qed.

End Entries.

(** ** Decimal numbers on a stream *)

Lemma digit_char_code (d : N) : d < 10 -> N_of_ascii (digit_char d) = 48 + d.
Proof. intros Hd. unfold digit_char. apply N_ascii_embedding. lia. Qed.

Lemma digit_char_is_digit (d : N) : d < 10 -> is_digit (digit_char d) = true.
Proof.
  intros Hd. unfold is_digit. rewrite digit_char_code by assumption.
  apply andb_true_intro. split; apply N.leb_le; lia.
Qed.

Lemma digit_char_value (d : N) : d < 10 -> digit_value (digit_char d) = d.
Proof. intros Hd. unfold digit_value. rewrite digit_char_code by assumption. lia. Qed.

Lemma mod_10_lt (n : N) : n mod 10 < 10.
Proof. apply N.mod_lt. discriminate. Qed.

Lemma dec_aux_app (fuel : nat) : forall n acc, dec_aux fuel n acc = dec_aux fuel n [] ++ acc.
Proof.
  induction fuel as [| f IH]; intros n acc; simpl; [reflexivity |].
  destruct (n / 10 =? 0); [reflexivity |].
  rewrite (IH _ (_ :: acc)), (IH _ [_]), <- app_assoc. reflexivity.
Qed.

Lemma dec_aux_head (fuel : nat) : forall n acc,
  starts_with_digit acc = true -> starts_with_digit (dec_aux fuel n acc) = true.
Proof.
  induction fuel as [| f IH]; intros n acc Hacc; simpl; [assumption |].
  destruct (n / 10 =? 0); [| apply IH]; simpl; apply digit_char_is_digit, mod_10_lt.
Qed.

Lemma dec_aux_digits (fuel : nat) : forall n acc,
  Forall (fun c => is_digit c = true) acc ->
  Forall (fun c => is_digit c = true) (dec_aux fuel n acc).
Proof.
  induction fuel as [| f IH]; intros n acc Hacc; simpl; [assumption |].
  assert (Forall (fun c => is_digit c = true) (digit_char (n mod 10) :: acc)).
  { constructor; [apply digit_char_is_digit, mod_10_lt | assumption]. }
  destruct (n / 10 =? 0); [assumption | now apply IH].
Qed.

Lemma digits_dec_aux (fuel : nat) : forall n rest,
  n < 10 ^ N.of_nat fuel ->
  digits 0 (dec_aux fuel n [] ++ rest) = digits n rest.
Proof.
  induction fuel as [| f IH]; intros n rest Hn.
  - simpl in *. now replace n with 0 by lia.
  - assert (Hstep : digits (n / 10) (digit_char (n mod 10) :: rest) = digits n rest).
    { simpl. rewrite digit_char_is_digit, digit_char_value by apply mod_10_lt.
      f_equal. pose proof (N.div_mod n 10). lia. }
    simpl. destruct (N.eqb_spec (n / 10) 0) as [E | E].
    + simpl app. rewrite <- Hstep, E. reflexivity.
    + rewrite dec_aux_app, <- app_assoc. simpl app. rewrite IH; [exact Hstep |].
      apply N.Div0.div_lt_upper_bound.
      replace (N.of_nat (S f)) with (N.succ (N.of_nat f)) in Hn by lia.
      now rewrite N.pow_succ_r' in Hn.
Qed.

Lemma dec_fuel (n : N) : n < 10 ^ N.of_nat (S (N.to_nat (N.size n))).
Proof.
  replace (N.of_nat (S (N.to_nat (N.size n)))) with (N.succ (N.size n)) by lia.
  rewrite N.pow_succ_r'.
  pose proof (N.size_gt n) as Hn.
  assert (2 ^ N.size n <= 10 ^ N.size n) by (apply N.pow_le_mono_l; lia).
  lia.
Qed.

Lemma digits_stop (v : N) (rest : list ascii) :
  starts_with_digit rest = false -> digits v rest = (v, rest).
Proof. destruct rest as [| c rest]; simpl; [reflexivity | now intros ->]. Qed.

(** Reading the digits of [n] gives [n] back and stops behind them. *)
Lemma digits_dec (n : N) (rest : list ascii) :
  starts_with_digit rest = false -> digits 0 (dec n ++ rest) = (n, rest).
Proof.
  intros Hrest. unfold dec. rewrite digits_dec_aux by apply dec_fuel.
  now apply digits_stop.
Qed.

Lemma dec_head (n : N) (rest : list ascii) : starts_with_digit (dec n ++ rest) = true.
Proof.
  unfold dec. simpl.
  assert (Hd : starts_with_digit [digit_char (n mod 10)] = true)
    by (simpl; apply digit_char_is_digit, mod_10_lt).
  destruct (n / 10 =? 0); [exact Hd |].
  pose proof (dec_aux_head (N.to_nat (N.size n)) (n / 10) _ Hd) as Hh.
  destruct (dec_aux _ _ _); [discriminate Hh | exact Hh].
Qed.

Lemma dec_all_digits (n : N) : Forall (fun c => is_digit c = true) (dec n).
Proof. unfold dec. apply dec_aux_digits. constructor. Qed.

Lemma digit_not_space (c : ascii) : is_digit c = true -> is_space c = false.
Proof. destruct c as [[] [] [] [] [] [] [] []]; (reflexivity || discriminate). Qed.

Lemma digit_not_sign (c : ascii) :
  is_digit c = true -> Ascii.eqb c "-" = false /\ Ascii.eqb c "+" = false.
Proof.
  destruct c as [[] [] [] [] [] [] [] []]; (discriminate || (split; reflexivity)).
Qed.

Lemma skipws_digit (s : list ascii) : starts_with_digit s = true -> skipws s = s.
Proof.
  destruct s as [| c s]; simpl; [reflexivity |].
  intros Hc. now rewrite digit_not_space.
Qed.

(** [in >> n] on the digits of an [unsigned int], with or without a blank
    in front. *)
Lemma get_uint_dec (n old : N) (rest : list ascii) :
  n < UInt.modulus -> starts_with_digit rest = false ->
  get_uint (source (dec n ++ rest)) old = (source rest, n).
Proof.
  intros Hn Hrest. unfold get_uint. simpl failed. simpl pending.
  pose proof (dec_head n rest) as Hh.
  rewrite skipws_digit by assumption.
  destruct (dec n ++ rest) as [| c s] eqn:Es; [discriminate Hh |].
  simpl in Hh. destruct (digit_not_sign c Hh) as [-> ->].
  simpl starts_with_digit. rewrite Hh, <- Es, digits_dec by assumption.
  destruct (N.leb_spec n UInt.max) as [_ | Hmax]; [reflexivity |].
  unfold UInt.max in Hmax. lia.
Qed.

Lemma get_uint_blank_dec (n old : N) (rest : list ascii) :
  n < UInt.modulus -> starts_with_digit rest = false ->
  get_uint (source (chars " " ++ dec n ++ rest)) old = (source rest, n).
Proof.
  intros Hn Hrest. rewrite <- (get_uint_dec n old rest) by assumption.
  reflexivity.
Qed.

(** ** The in-memory object keeps the laws *)

Lemma mock_has_insert (s : Mock.t) (r c r' c' : N) :
  Mock.has (Mock.insert s r c) r' c' = ((r' =? r) && (c' =? c)) || Mock.has s r' c'.
Proof.
  unfold Mock.insert. destruct (Mock.has s r c) eqn:Es.
  - destruct (N.eqb_spec r' r) as [-> | _]; [| reflexivity].
    destruct (N.eqb_spec c' c) as [-> | _]; [| reflexivity].
    now rewrite Es.
  - unfold Mock.has. simpl. rewrite existsb_app. simpl.
    unfold Mock.is_entry at 2. simpl.
    rewrite (N.eqb_sym r r'), (N.eqb_sym c c').
    destruct (existsb _ _), ((r' =? r) && (c' =? c)); reflexivity.
Qed.

(** On the in-memory object a second insertion of a chunk changes nothing
    at all. *)
Lemma mock_insert_twice (s : Mock.t) (r c : N) :
  Mock.insert (Mock.insert s r c) r c = Mock.insert s r c.
Proof.
  unfold Mock.insert at 1. now rewrite mock_has_insert, !N.eqb_refl.
Qed.

Lemma mock_number_dec (n : N) (rest : list ascii) :
  Mock.number (dec n ++ chars " " ++ rest) = Some (n, rest).
Proof.
  unfold Mock.number. rewrite dec_head, digits_dec by reflexivity. reflexivity.
Qed.

Lemma mock_read_entries_write (l : list (N * N)) (rest : list ascii) :
  Mock.read_entries (length l) (concat (map Mock.write_entry l) ++ rest) = Some (l, rest).
Proof.
  induction l as [| [r c] l IH]; [reflexivity |].
  cbn [length map concat Mock.read_entries].
  unfold Mock.write_entry at 1. cbn [fst snd].
  rewrite <- !app_assoc.
  rewrite (mock_number_dec r). cbv beta iota.
  rewrite (mock_number_dec c). cbv beta iota. now rewrite IH.
Qed.

Lemma mock_read_write (s0 s : Mock.t) (rest : list ascii) :
  Mock.read s0 (source (Mock.write s ++ rest)) = Ok (s, source rest).
Proof.
  unfold Mock.read, Mock.write, source. cbn [failed pending].
  rewrite <- !app_assoc.
  rewrite (mock_number_dec (Mock.n_rows s)). cbv beta iota.
  rewrite (mock_number_dec (Mock.n_cols s)). cbv beta iota.
  rewrite (mock_number_dec (N.of_nat (length (Mock.entries s)))). cbv beta iota.
  rewrite Nat2N.id, mock_read_entries_write.
  now destruct s.
Qed.

#[global] Instance mock_laws : SparsityPatternLaws Mock.t.
Proof.
  split.
  - intros s r c r' c'. apply mock_has_insert.
  - reflexivity.
  - intros s0 s rest. exists s. split; [apply mock_read_write | reflexivity].
Qed.

(** ** What holds of every constructed pattern *)

Lemma get_uint_bound (i : istream) (old : N) :
  old < UInt.modulus -> (get_uint i old).2 < UInt.modulus.
Proof.
  intros Hold. unfold get_uint.
  destruct (failed i); [exact Hold |].
  destruct (match skipws (pending i) with
            | [] => (false, skipws (pending i))
            | c :: s' => _
            end) as [negative s1].
  destruct (starts_with_digit s1); [| exact Hold].
  destruct (digits 0 s1) as [v rest].
  destruct (N.leb_spec v UInt.max) as [Hv | Hv]; [| exact Hold].
  cbn [snd]. destruct negative; [apply wrap_lt |].
  unfold UInt.max in Hv. assert (0 < UInt.modulus) by reflexivity. lia.
Qed.

Section Invariant.
Context {SP : Type} `{SparsityPatternOps SP}.

Implicit Types p this : ChunkSparsityPattern SP.

Lemma add_Ok_inv p (i j : N) p' :
  add p i j = Ok p' ->
  i < rows p /\ j < cols p
  /\ rows p' = rows p /\ cols p' = cols p /\ chunk_size p' = chunk_size p.
Proof.
  unfold add. intros E.
  bind_inv E. apply Assert_Ok_inv, N.ltb_lt in E0.
  bind_inv E. apply Assert_Ok_inv, N.ltb_lt in E1.
  bind_inv E. bind_inv E. injection E as <-. auto.
Qed.

Lemma assign_Ok_inv p s p' :
  assign p s = Ok p' ->
  rows p' = rows p /\ cols p' = cols p /\ chunk_size p' = chunk_size p.
Proof.
  unfold assign. intros E. bind_inv E. bind_inv E.
  destruct (sp_assign _ _); [| discriminate E]. injection E as <-. auto.
Qed.

Lemma block_read_Ok_inv p (in_ in' : istream) p' :
  block_read p in_ = Ok (p', in') ->
  chunk_size p' = chunk_size p
  /\ (rows p < UInt.modulus -> rows p' < UInt.modulus)
  /\ (cols p < UInt.modulus -> cols p' < UInt.modulus).
Proof.
  unfold block_read. intros E. bind_inv E.
  destruct (get_char in_ None) as [in1 c1]. bind_inv E.
  pose proof (get_uint_bound in1 (rows p)) as Hrows.
  destruct (get_uint in1 (rows p)) as [in2 rows'].
  pose proof (get_uint_bound in2 (cols p)) as Hcols.
  destruct (get_uint in2 (cols p)) as [in3 cols'].
  destruct (get_char in3 c1) as [in4 c2]. bind_inv E.
  destruct (get_char in4 c2) as [in5 c3]. bind_inv E.
  bind_inv E. destruct a3 as [sp in6].
  destruct (get_char in6 c3) as [in7 c4]. bind_inv E.
  injection E as <- <-. auto.
Qed.

(** Every constructed pattern has a chunk size of at least one, and its
    fields are [unsigned int]s. *)
Lemma constructed_well_sized p : constructed p -> well_sized p.
Proof.
  unfold well_sized.
  induction 1 as [this m n rl c od p Hm Hn Hc E
                 | p i j p' _ IH E | p _ IH | p s p' _ IH E | p i p' i' _ IH E].
  - apply reinit_Ok_inv in E. destruct E as (_ & H1 & -> & -> & ->). auto.
  - apply add_Ok_inv in E. destruct E as (_ & _ & -> & -> & ->). exact IH.
  - exact IH.
  - apply assign_Ok_inv in E. destruct E as (-> & -> & ->). exact IH.
  - apply block_read_Ok_inv in E. destruct E as (-> & Hr & Hk).
    destruct IH as (H1 & H2 & H3 & H4). auto.
Qed.

Lemma constructed_add_loop (entries : list (N * N)) : forall p p',
  constructed p ->
  for_each entries (fun '(i, j) this => add this i j) p = Ok p' ->
  constructed p'.
Proof.
  induction entries as [| [i j] entries IH]; intros p p' Hp E.
  - injection E as <-. exact Hp.
  - cbn [for_each] in E. bind_inv E. apply (IH a); [| exact E].
    now apply (constructed_add p i j).
Qed.

Lemma constructed_fill_from_entries this m n row_lengths entries c optimize_diag p :
  m < UInt.modulus -> n < UInt.modulus -> c < UInt.modulus ->
  fill_from_entries this m n row_lengths entries c optimize_diag = Ok p ->
  constructed p.
Proof.
  intros Hm Hn Hc E. unfold fill_from_entries in E.
  bind_inv E. bind_inv E. injection E as <-.
  apply constructed_compress, (constructed_add_loop entries a); [| assumption].
  now apply (constructed_reinit this m n row_lengths c optimize_diag).
Qed.

End Invariant.

(** ** [block_write] and [block_read] *)

Lemma get_char_plain (c : ascii) (s : list ascii) (old : option ascii) :
  is_space c = false -> get_char (source (c :: s)) old = (source s, Some c).
Proof. intros Hc. unfold get_char, source. cbn [failed pending skipws]. now rewrite Hc. Qed.

Lemma get_char_blank (c : ascii) (s : list ascii) (old : option ascii) :
  is_space c = false -> get_char (source (chars " " ++ c :: s)) old = (source s, Some c).
Proof. intros Hc. rewrite <- (get_char_plain c s old Hc). reflexivity. Qed.

Section Persistence.
Context {SP : Type} `{SparsityPatternLaws SP}.

Lemma block_write_Ok (p : ChunkSparsityPattern SP) (out : ostream) :
  good out = true ->
  block_write p out
  = Ok {| written := written out
                     ++ format_written (rows p) (cols p)
                          (sp_block_write (sparsity_pattern p));
          good := true |}.
Proof.
  destruct out as [w g]. cbn [good written]. intros ->.
  unfold block_write, put, format_written.
  cbn [good written Assert mbind result_bind].
  do 2 f_equal. rewrite <- !app_assoc. reflexivity.
Qed.

Lemma block_read_format (reader : ChunkSparsityPattern SP) (r c : N) (sp : SP)
    (rest : list ascii) :
  r < UInt.modulus -> c < UInt.modulus ->
  exists sp',
    block_read reader (source (format_written r c (sp_block_write sp) ++ rest))
    = Ok ({| rows := r; cols := c; chunk_size := chunk_size reader;
             sparsity_pattern := sp' |}, source rest)
    /\ forall a b, sp_exists sp' a b = sp_exists sp a b.
Proof.
  intros Hr Hc.
  destruct (sp_block_read_write (sparsity_pattern reader) sp (chars "]" ++ rest))
    as (sp' & Eread & Hsp').
  exists sp'. split; [| exact Hsp'].
  unfold block_read, format_written.
  cbn [failed source negb Assert mbind result_bind]. rewrite <- !app_assoc.
  change (chars "[" ++ ?x) with ("["%char :: x).
  rewrite get_char_plain by reflexivity.
  cbn [is_char Ascii.eqb Bool.eqb Assert mbind result_bind].
  rewrite get_uint_dec by (assumption || reflexivity).
  rewrite get_uint_blank_dec by (assumption || reflexivity).
  change (chars "]" ++ ?x) with ("]"%char :: x).
  rewrite get_char_blank by reflexivity.
  cbn [is_char Ascii.eqb Bool.eqb Assert mbind result_bind].
  change (chars "[" ++ ?x) with ("["%char :: x).
  rewrite get_char_plain by reflexivity.
  cbn [is_char Ascii.eqb Bool.eqb Assert mbind result_bind].
  change ("]"%char :: rest) with (chars "]" ++ rest).
  rewrite Eread. cbn [mbind result_bind].
  change (chars "]" ++ rest) with ("]"%char :: rest).
  rewrite get_char_plain by reflexivity.
  reflexivity.
Qed.

(** C2, as the code has it: on a good stream [block_write] appends
    ['['], the decimal digits of [rows], a blank, the decimal digits of
    [cols], a blank, [']'], ['['], what the wrapped object writes, and
    [']']; the digits are digits only and read back as the number. *)
Theorem block_write_bytes (p : ChunkSparsityPattern SP) (out : ostream) :
  good out = true ->
  block_write p out
  = Ok {| written :=
            written out
            ++ chars "[" ++ dec (rows p) ++ chars " " ++ dec (cols p) ++ chars " "
            ++ chars "]" ++ chars "[" ++ sp_block_write (sparsity_pattern p)
            ++ chars "]";
          good := true |}
  /\ Forall (fun c => is_digit c = true) (dec (rows p))
  /\ Forall (fun c => is_digit c = true) (dec (cols p))
  /\ digits 0 (dec (rows p) ++ chars " ") = (rows p, chars " ")
  /\ digits 0 (dec (cols p) ++ chars " ") = (cols p, chars " ").
Proof.
  intros Hgood. split; [now apply block_write_Ok |].
  split; [apply dec_all_digits |]. split; [apply dec_all_digits |].
  split; now apply digits_dec.
Qed.

(** C1, as the code has it: [block_read], called on any pattern, reads
    what [block_write] wrote for [p] to the end and yields the rows and
    columns of [p] and a wrapped object with the chunks of [p]; the chunk
    size is not written and stays that of the reading pattern.  When the
    two chunk sizes agree, the pattern read cannot be told from [p] and
    [exists] answers the same everywhere. *)
Theorem block_read_after_block_write (p reader : ChunkSparsityPattern SP)
    (rest : list ascii) :
  constructed p ->
  exists out p',
    block_write p sink = Ok out
    /\ block_read reader (source (written out ++ rest)) = Ok (p', source rest)
    /\ rows p' = rows p /\ cols p' = cols p
    /\ chunk_size p' = chunk_size reader
    /\ (forall r c, sp_exists (sparsity_pattern p') r c
                    = sp_exists (sparsity_pattern p) r c)
    /\ (chunk_size reader = chunk_size p ->
        same_pattern p' p /\ forall i j, exists_ p' i j = exists_ p i j).
Proof.
  intros Hp. destruct (constructed_well_sized p Hp) as (_ & _ & Hr & Hc).
  destruct (block_read_format reader (rows p) (cols p) (sparsity_pattern p) rest Hr Hc)
    as (sp' & Eread & Hsp').
  eexists _, _. split; [now apply block_write_Ok |].
  cbn [written sink app]. split; [exact Eread |].
  cbn [rows cols chunk_size sparsity_pattern].
  repeat (split; [reflexivity || exact Hsp' |]).
  intros Ecs.
  assert (Hsame : same_pattern
                    {| rows := rows p; cols := cols p; chunk_size := chunk_size reader;
                       sparsity_pattern := sp' |} p).
  { repeat split; try reflexivity; try exact Ecs. exact Hsp'. }
  split; [exact Hsame | now apply same_pattern_exists].
Qed.

End Persistence.

(** C2, as stated, at the 4 by 4 pattern [Examples.P]: the bytes written
    are ["[4 4 ][3 3 1 0 0 ]"], with a blank between the columns and the
    bracket, and not what the description lists. *)
Lemma block_write_blank_before_bracket :
  exists out,
    block_write Examples.P sink = Ok out
    /\ written out = chars "[4 4 ][3 3 1 0 0 ]"
    /\ written out
       <> format_described (rows Examples.P) (cols Examples.P)
                           (sp_block_write (sparsity_pattern Examples.P)).
Proof.
  eexists. split; [vm_compute; reflexivity |].
  split; [reflexivity | vm_compute; discriminate].
Qed.

(** C1, as stated, at [Examples.P] (chunks of 2) read into [Examples.Q]
    (chunks of 1): the pattern read has chunks of 1, and [exists (1, 1)],
    true on [Examples.P], is false on it. *)
Lemma block_read_keeps_the_readers_chunk_size :
  exists out p',
    block_write Examples.P sink = Ok out
    /\ block_read Examples.Q (source (written out)) = Ok (p', source [])
    /\ chunk_size p' <> chunk_size Examples.P
    /\ exists_ Examples.P 1 1 = Ok true
    /\ exists_ p' 1 1 = Ok false.
Proof.
  eexists _, _. split; [vm_compute; reflexivity |].
  split; [vm_compute; reflexivity |].
  split; [intros E; vm_compute in E; discriminate E |].
  split; reflexivity.
Qed.

(** ** Counting the entries of each row *)

Lemma count_row_cons (e : N * N) (l : list (N * N)) (r : N) :
  count_row (e :: l) r = (if e.1 =? r then 1 else 0) + count_row l r.
Proof.
  unfold count_row. simpl. destruct (e.1 =? r); simpl length; lia.
Qed.

Lemma count_row_Permutation (l l' : list (N * N)) (r : N) :
  Permutation l l' -> count_row l r = count_row l' r.
Proof.
  induction 1 as [| e l l' _ IH | e1 e2 l | l1 l2 l3 _ IH1 _ IH2].
  - reflexivity.
  - now rewrite !count_row_cons, IH.
  - rewrite !count_row_cons. lia.
  - now rewrite IH1.
Qed.

Lemma count_row_le_length (l : list (N * N)) (r : N) :
  count_row l r <= N.of_nat (length l).
Proof.
  induction l as [| e l IH]; [reflexivity |].
  rewrite count_row_cons. simpl length. destruct (e.1 =? r); lia.
Qed.

Lemma row_counts_Permutation (m : N) (l l' : list (N * N)) :
  Permutation l l' -> row_counts m l = row_counts m l'.
Proof.
  intros Hp. unfold row_counts. apply map_ext. intros r.
  now apply count_row_Permutation.
Qed.

Lemma row_counts_length (m : N) (l : list (N * N)) :
  N.of_nat (length (row_counts m l)) = m.
Proof. unfold row_counts. rewrite length_map, count_up_length. lia. Qed.

Lemma increment_Ok (v : list N) (r x : N) :
  v !! N.to_nat r = Some x -> x + 1 < UInt.modulus ->
  increment v r = Ok (<[N.to_nat r := x + 1]> v).
Proof.
  intros Ex Hx. unfold increment. rewrite (at_Ok _ _ _ Ex), bind_Ok.
  rewrite store_Ok by now apply lookup_lt_Some in Ex.
  unfold UInt.add. now rewrite wrap_small.
Qed.

Lemma counting_loop (l : list (N * N)) : forall v : list N,
  (forall e, In e l -> (N.to_nat e.1 < length v)%nat) ->
  (forall r x, v !! N.to_nat r = Some x -> x + count_row l r < UInt.modulus) ->
  exists v',
    for_each l (fun e v => increment v e.1) v = Ok v'
    /\ length v' = length v
    /\ forall r x, v !! N.to_nat r = Some x ->
                   v' !! N.to_nat r = Some (x + count_row l r).
Proof.
  induction l as [| e l IH]; intros v Hin Hfit.
  - exists v. split; [reflexivity |]. split; [reflexivity |].
    intros r x Ex. rewrite Ex. f_equal. unfold count_row. simpl. lia.
  - destruct (lookup_lt_is_Some_2 v (N.to_nat e.1)) as [x Ex]; [apply Hin; now left |].
    pose proof (Hfit _ _ Ex) as Hx. rewrite count_row_cons, N.eqb_refl in Hx.
    destruct (IH (<[N.to_nat e.1 := x + 1]> v)) as (v' & E & Hlen & Hv').
    + intros e' He'. rewrite length_insert. apply Hin. now right.
    + intros r y Ey. destruct (decide (N.to_nat e.1 = N.to_nat r)) as [Er | Er].
      * rewrite Er in Ey.
        rewrite list_lookup_insert_eq in Ey by (rewrite <- Er; now apply lookup_lt_Some in Ex).
        injection Ey as <-. replace r with e.1 by lia. lia.
      * rewrite list_lookup_insert_ne in Ey by assumption.
        pose proof (Hfit _ _ Ey) as Hy. rewrite count_row_cons in Hy.
        destruct (e.1 =? r); lia.
    + exists v'. split; [| split].
      * cbn [for_each]. rewrite (increment_Ok _ _ _ Ex) by lia. exact E.
      * now rewrite Hlen, length_insert.
      * intros r y Ey. rewrite count_row_cons.
        destruct (N.eqb_spec e.1 r) as [Er | Er].
        -- subst r. rewrite Ex in Ey. injection Ey as <-.
           rewrite (Hv' e.1 (x + 1)); [f_equal; lia |].
           apply list_lookup_insert_eq. now apply lookup_lt_Some in Ex.
        -- rewrite (Hv' r y); [f_equal |].
           rewrite list_lookup_insert_ne; [assumption | lia].
Qed.

(** The counting loops of [copy_from] leave the number of entries of each
    row in [entries_per_row]. *)
Lemma counting_loop_zero (m : N) (l : list (N * N)) :
  (forall e, In e l -> e.1 < m) ->
  (forall r, r < m -> count_row l r < UInt.modulus) ->
  for_each l (fun e v => increment v e.1) (replicate (N.to_nat m) 0)
  = Ok (row_counts m l).
Proof.
  intros Hin Hfit.
  destruct (counting_loop l (replicate (N.to_nat m) 0)) as (v' & E & Hlen & Hv').
  - intros e He. rewrite length_replicate. specialize (Hin e He). lia.
  - intros r x Ex. apply lookup_replicate in Ex. destruct Ex as [-> Hr].
    specialize (Hfit r). lia.
  - rewrite E. f_equal. apply list_eq. intros j.
    rewrite length_replicate in Hlen.
    destruct (decide (j < N.to_nat m)%nat) as [Hj | Hj].
    + unfold row_counts. rewrite list_lookup_fmap, count_up_lookup by assumption.
      simpl. specialize (Hv' (N.of_nat j) 0). rewrite Nat2N.id in Hv'.
      rewrite Hv'; [reflexivity |]. now apply lookup_replicate_2.
    + rewrite !lookup_ge_None_2; [reflexivity | | lia].
      unfold row_counts. rewrite length_map, count_up_length. lia.
Qed.

(** ** Positions *)

Lemma existsb_same_elements {A} (f : A -> bool) (l l' : list A) :
  (forall x, In x l <-> In x l') -> existsb f l = existsb f l'.
Proof.
  intros Hll'. apply eq_true_iff_eq. rewrite !existsb_exists.
  split; intros (x & Hx & Hf); exists x; (split; [now apply Hll' | assumption]).
Qed.

Lemma positions_full_In (m n : N) (nz : N -> N -> bool) (i j : N) :
  In (i, j) (positions_full m n nz) <-> i < m /\ j < n /\ nz i j = true.
Proof.
  unfold positions_full. rewrite in_flat_map. split.
  - intros (row & Hrow & Hin). apply in_map_iff in Hin.
    destruct Hin as (col & [= <- <-] & Hcol). apply List.filter_In in Hcol.
    rewrite count_up_In in Hrow, Hcol. tauto.
  - intros (Hi & Hj & Hnz). exists i. split; [now apply count_up_In |].
    apply in_map_iff. exists j. split; [reflexivity |].
    apply List.filter_In. split; [now apply count_up_In | assumption].
Qed.

Lemma NoDup_rows {B C} (inner : B -> list C) (l : list B) :
  NoDup l -> (forall x, NoDup (inner x)) ->
  NoDup (flat_map (fun x => map (pair x) (inner x)) l).
Proof.
  intros Hl Hinner. induction Hl as [| x l Hx Hl IH]; simpl; [constructor |].
  apply NoDup_app. split; [| split].
  - apply NoDup_fmap_2; [| apply Hinner]. intros a b [= ->]. reflexivity.
  - intros [a b] Ha Hb. apply list_elem_of_In in Ha, Hb.
    apply in_map_iff in Ha. destruct Ha as (y & [= <- <-] & _).
    apply in_flat_map in Hb. destruct Hb as (x' & Hx' & Hb).
    apply in_map_iff in Hb. destruct Hb as (y' & [= <- <-] & _).
    apply Hx. now apply list_elem_of_In.
  - exact IH.
Qed.

Lemma positions_full_lists (m n : N) (nz : N -> N -> bool) :
  lists_nonzeros m n nz (positions_full m n nz).
Proof.
  split.
  - apply NoDup_rows; [apply count_up_NoDup |].
    intros row. apply NoDup_ListNoDup, List.NoDup_filter, NoDup_ListNoDup, count_up_NoDup.
  - intros i j. apply positions_full_In.
Qed.

Lemma lists_nonzeros_Permutation (m n : N) (nz : N -> N -> bool) (l : list (N * N)) :
  lists_nonzeros m n nz l -> Permutation l (positions_full m n nz).
Proof.
  intros [Hnd Hin]. apply Permutation.NoDup_Permutation.
  - now apply NoDup_ListNoDup.
  - apply NoDup_ListNoDup, positions_full_lists.
  - intros [i j]. now rewrite Hin, positions_full_In.
Qed.

(** A row of a list of nonzeros has at most [n] entries. *)
Lemma count_row_bound (m n : N) (nz : N -> N -> bool) (l : list (N * N)) (r : N) :
  lists_nonzeros m n nz l -> count_row l r <= n.
Proof.
  intros [Hnd Hin]. unfold count_row.
  set (row := List.filter (fun e => e.1 =? r) l).
  assert (Hrow : forall e, In e row -> e.1 = r /\ e.2 < n).
  { intros [i j] He. apply List.filter_In in He. destruct He as [He Hr].
    apply Hin in He. simpl in *. apply N.eqb_eq in Hr. tauto. }
  assert (Hnd' : NoDup (map snd row)).
  { apply NoDup_fmap_2_strong;
      [| subst row; apply NoDup_ListNoDup, List.NoDup_filter, NoDup_ListNoDup, Hnd].
    intros [i j] [i' j'] He He' E. apply list_elem_of_In, Hrow in He, He'.
    simpl in *. f_equal; [| assumption]. destruct He, He'. congruence. }
  assert (Hle : (length (map snd row) <= length (count_up n))%nat).
  { apply NoDup_incl_length; [now apply NoDup_ListNoDup |].
    intros j Hj. apply in_map_iff in Hj. destruct Hj as (e & <- & He).
    apply count_up_In. now apply Hrow. }
  rewrite length_map, count_up_length in Hle. lia.
Qed.

Lemma lists_nonzeros_counted (m n : N) (nz : N -> N -> bool) (l : list (N * N)) :
  n < UInt.modulus -> lists_nonzeros m n nz l ->
  for_each l (fun e v => increment v e.1) (replicate (N.to_nat m) 0)
  = Ok (row_counts m l).
Proof.
  intros Hn Hl. apply counting_loop_zero.
  - intros [i j] He. apply (proj2 Hl) in He. simpl. tauto.
  - intros r _. pose proof (count_row_bound m n nz l r Hl). lia.
Qed.

(** ** The builders *)

Lemma bind_ext {A B} (m : result A) (f g : A -> result B) :
  (forall a, f a = g a) -> m ≫= f = m ≫= g.
Proof. intros Hfg. destruct m; simpl; auto. Qed.

Lemma for_upto_nested {A D} (m : N) (len : N -> N) (g : N -> N -> D)
    (body : D -> A -> result A) (a : A) :
  for_upto m (fun x b => for_upto (len x) (fun y b => body (g x y) b) b) a
  = for_each (flat_map (fun x => map (g x) (count_up (len x))) (count_up m)) body a.
Proof.
  rewrite for_upto_each, <- for_each_nested.
  apply for_each_ext. intros x b _. apply for_upto_each.
Qed.

Lemma for_upto_each_nested {A C D} (m : N) (inner : N -> list C) (g : N -> C -> D)
    (body : D -> A -> result A) (a : A) :
  for_upto m (fun x b => for_each (inner x) (fun y b => body (g x y) b) b) a
  = for_each (flat_map (fun x => map (g x) (inner x)) (count_up m)) body a.
Proof. now rewrite for_upto_each, <- for_each_nested. Qed.

(** The two loops over a dense matrix visit its nonzero positions. *)
Lemma full_matrix_loops {A number} (nonzero : number -> bool) (m n : N)
    (nz : N -> N -> bool) (matrix : FullMatrix number)
    (body : N * N -> A -> result A) (a : A) :
  represents_full nonzero m n nz matrix ->
  for_upto m (fun row b =>
    for_upto n (fun col b =>
      x ← fm_at matrix row col;
      if nonzero x then body (row, col) b else Ok b) b) a
  = for_each (positions_full m n nz) body a.
Proof.
  intros (Em & En & Hat).
  rewrite for_upto_each. unfold positions_full.
  rewrite <- (for_each_nested (fun row => List.filter (nz row) (count_up n)) pair body).
  apply for_each_ext. intros row b Hrow.
  rewrite for_upto_each, <- for_each_filter.
  apply for_each_ext. intros col b' Hcol.
  apply count_up_In in Hrow, Hcol.
  destruct (Hat row col Hrow Hcol) as (x & -> & <-). reflexivity.
Qed.

(** A matrix whose [val] holds [dim_image * dim_range] elements has a
    nonzero structure: the one its entries give. *)
Lemma full_matrix_represents {number} (nonzero : number -> bool)
    (matrix : FullMatrix number) :
  N.of_nat (length (val matrix)) = dim_image matrix * dim_range matrix ->
  represents_full nonzero (dim_image matrix) (dim_range matrix)
    (fun i j => match el matrix i j with Ok x => nonzero x | _ => false end)
    matrix.
Proof.
  intros Hlen. split; [reflexivity |]. split; [reflexivity |].
  intros i j Hi Hj. unfold fm_at.
  apply N.ltb_lt in Hi as Hi', Hj as Hj'. rewrite Hi', Hj'.
  cbn [Assert mbind result_bind]. unfold el, at_.
  set (k := UInt.add (UInt.mul i (dim_range matrix)) j).
  assert (Hk : (N.to_nat k < length (val matrix))%nat).
  { subst k. unfold UInt.add, UInt.mul.
    pose proof (wrap_le (i * dim_range matrix)) as H1.
    pose proof (wrap_le (UInt.wrap (i * dim_range matrix) + j)) as H2.
    assert (i * dim_range matrix + j < dim_image matrix * dim_range matrix) by nia.
    lia. }
  destruct (lookup_lt_is_Some_2 _ _ Hk) as [x Ex]. rewrite Ex.
  exists x. split; reflexivity.
Qed.

Section Builders.
Context {SP : Type} `{SparsityPatternLaws SP}.

Implicit Types p this : ChunkSparsityPattern SP.

Lemma add_loop (entries : list (N * N)) : forall p,
  1 <= chunk_size p ->
  (forall e, In e entries -> e.1 < rows p /\ e.2 < cols p) ->
  exists p',
    for_each entries (fun e p => add p e.1 e.2) p = Ok p'
    /\ rows p' = rows p /\ cols p' = cols p /\ chunk_size p' = chunk_size p
    /\ forall r k,
         sp_exists (sparsity_pattern p') r k
         = existsb (in_chunk (chunk_size p) r k) entries
           || sp_exists (sparsity_pattern p) r k.
Proof.
  induction entries as [| e entries IH]; intros p Hc Hin.
  - exists p. repeat split; reflexivity.
  - destruct (Hin e) as [Hi Hj]; [now left |].
    set (p1 := with_sparsity_pattern p
                 (sp_add (sparsity_pattern p) (e.1 / chunk_size p) (e.2 / chunk_size p))).
    destruct (IH p1) as (p' & E & Hr & Hk & Hs & Hex).
    + exact Hc.
    + intros e' He'. apply Hin. now right.
    + exists p'. split; [| repeat split; try assumption].
      * cbn [for_each]. rewrite add_Ok by assumption. exact E.
      * intros r k. rewrite Hex. cbn [existsb chunk_size sparsity_pattern p1
                                        with_sparsity_pattern].
        rewrite sp_exists_add. unfold in_chunk at 2.
        destruct (existsb _ entries), ((r =? e.1 / chunk_size p)
                                       && (k =? e.2 / chunk_size p));
          reflexivity.
Qed.

Lemma built_from_same this m n c optimize_diag nz p q :
  built_from this m n c optimize_diag nz p ->
  built_from this m n c optimize_diag nz q ->
  same_pattern p q.
Proof.
  intros (Hr & Hk & Hs & Hp) (Er & Ec & Es & Hq).
  split; [congruence |]. split; [congruence |]. split; [congruence |].
  intros r k. now rewrite Hp, Hq.
Qed.

Lemma represented_row_lengths m n nz row_lengths entries :
  represents_entries m n nz row_lengths entries ->
  row_lengths = row_counts m (positions_full m n nz).
Proof.
  intros [(l & Hl & ->) _]. apply row_counts_Permutation.
  now apply (lists_nonzeros_Permutation m n nz).
Qed.

Lemma fill_from_entries_built this m n c optimize_diag nz row_lengths entries :
  1 <= c -> m + c < UInt.modulus ->
  represents_entries m n nz row_lengths entries ->
  exists p,
    fill_from_entries this m n row_lengths entries c optimize_diag = Ok p
    /\ built_from this m n c optimize_diag nz p.
Proof.
  intros Hc Hm Hrep.
  rewrite (represented_row_lengths m n nz row_lengths entries Hrep).
  destruct Hrep as [_ Hentries].
  unfold fill_from_entries.
  rewrite reinit_Ok by (assumption || apply row_counts_length).
  rewrite bind_Ok.
  match goal with |- context [for_each entries ?f ?q] =>
    destruct (add_loop entries q) as (p' & E & Hr & Hk & Hs & Hex);
    [exact Hc | |
     replace (for_each entries f q) with (Ok p')
       by (rewrite <- E; apply for_each_ext; now intros [i j]) ]
  end.
  - intros [i j] He. apply Hentries in He. simpl. tauto.
  - rewrite bind_Ok. eexists. split; [reflexivity |].
    unfold built_from, compress. cbn [rows cols chunk_size sparsity_pattern
                                      with_sparsity_pattern] in *.
    repeat split; try assumption.
    intros r k. rewrite sp_exists_compress, Hex. f_equal.
    apply existsb_same_elements. intros [i j].
    now rewrite Hentries, positions_full_In.
Qed.

(** Counting the row lengths from the entries, as the three overloads do,
    is the protocol of the caller with these counts. *)
Lemma fill_counted_fill_from_entries this m n c optimize_diag nz l :
  n < UInt.modulus -> lists_nonzeros m n nz l ->
  fill_counted this m n l c optimize_diag
  = fill_from_entries this m n (row_counts m l) l c optimize_diag.
Proof.
  intros Hn Hl. unfold fill_counted, fill_from_entries.
  rewrite (lists_nonzeros_counted m n nz) by assumption. rewrite bind_Ok.
  apply bind_ext. intros this1. f_equal.
  apply for_each_ext. now intros [i j].
Qed.

Lemma fill_counted_built this m n c optimize_diag nz l :
  1 <= c -> m + c < UInt.modulus -> n < UInt.modulus ->
  lists_nonzeros m n nz l ->
  exists p,
    fill_counted this m n l c optimize_diag = Ok p
    /\ built_from this m n c optimize_diag nz p.
Proof.
  intros Hc Hm Hn Hl.
  rewrite (fill_counted_fill_from_entries this m n c optimize_diag nz) by assumption.
  apply fill_from_entries_built; [assumption | assumption |].
  split; [now exists l | apply Hl].
Qed.

End Builders.

Section Overloads.
Context {SP : Type} `{SparsityPatternLaws SP}.
Context {number : Type} (nonzero : number -> bool).

Implicit Types p this : ChunkSparsityPattern SP.

Lemma copy_from_csp_unrolled this csp c optimize_diag :
  copy_from_csp this csp c optimize_diag
  = fill_counted this (csp_n_rows csp) (csp_n_cols csp) (positions_csp csp)
                 c optimize_diag.
Proof.
  unfold copy_from_csp, fill_counted.
  rewrite (for_upto_nested (csp_n_rows csp) (csp_row_length csp)
             (fun row j => (row, csp_column_number csp row j))
             (fun e v => increment v e.1)).
  apply bind_ext. intros entries_per_row. apply bind_ext. intros this1.
  now rewrite (for_upto_nested (csp_n_rows csp) (csp_row_length csp)
                 (fun row j => (row, csp_column_number csp row j))
                 (fun e this => add this e.1 e.2)).
Qed.

Lemma copy_from_cssp_unrolled this csp c optimize_diag :
  copy_from_cssp this csp c optimize_diag
  = fill_counted this (cssp_n_rows csp) (cssp_n_cols csp) (positions_cssp csp)
                 c optimize_diag.
Proof.
  unfold copy_from_cssp, fill_counted.
  rewrite (for_upto_each_nested (cssp_n_rows csp) (cssp_row csp) pair
             (fun e v => increment v e.1)).
  apply bind_ext. intros entries_per_row. apply bind_ext. intros this1.
  now rewrite (for_upto_each_nested (cssp_n_rows csp) (cssp_row csp) pair
                 (fun e this => add this e.1 e.2)).
Qed.

Lemma copy_from_full_unrolled this m n nz matrix c optimize_diag :
  represents_full nonzero m n nz matrix ->
  copy_from_full nonzero this matrix c optimize_diag
  = fill_counted this m n (positions_full m n nz) c optimize_diag.
Proof.
  intros HM. unfold copy_from_full, fill_counted, fm_m, fm_n.
  rewrite (proj1 HM), (proj1 (proj2 HM)).
  rewrite (full_matrix_loops nonzero m n nz matrix (fun e v => increment v e.1))
    by exact HM.
  apply bind_ext. intros entries_per_row. apply bind_ext. intros this1.
  now rewrite (full_matrix_loops nonzero m n nz matrix
                 (fun e this => add this e.1 e.2)) by exact HM.
Qed.

(** C7: for sources that hold the same nonzero positions of an [m] by [n]
    matrix, the caller-driven protocol and the three [copy_from] overloads,
    run on the same pattern with the same chunk size, all return, and any
    two of the patterns they return have the same size, the same chunk
    size and the same chunks present, so [exists (i, j)] answers the same
    on both for every [(i, j)].  A source that hands over its entries in
    the order of the dense loops (row by row, columns ascending) returns
    the very pattern the dense overload returns. *)
Theorem copy_from_overloads_agree this (m n c : N) (optimize_diag : bool)
    (nz : N -> N -> bool) (row_lengths : list N) (entries : list (N * N))
    (csp : CompressedSparsityPattern) (cssp : CompressedSetSparsityPattern)
    (matrix : FullMatrix number) :
  1 <= c -> m + c < UInt.modulus -> n < UInt.modulus ->
  represents_entries m n nz row_lengths entries ->
  represents_csp m n nz csp ->
  represents_cssp m n nz cssp ->
  represents_full nonzero m n nz matrix ->
  exists p1 p2 p3 p4,
    fill_from_entries this m n row_lengths entries c optimize_diag = Ok p1
    /\ copy_from_csp this csp c optimize_diag = Ok p2
    /\ copy_from_cssp this cssp c optimize_diag = Ok p3
    /\ copy_from_full nonzero this matrix c optimize_diag = Ok p4
    /\ (forall p q, In p [p1; p2; p3; p4] -> In q [p1; p2; p3; p4] ->
          same_pattern p q /\ forall i j, exists_ p i j = exists_ q i j)
    /\ (entries = positions_full m n nz -> p1 = p4)
    /\ (positions_csp csp = positions_full m n nz -> p2 = p4)
    /\ (positions_cssp cssp = positions_full m n nz -> p3 = p4).
Proof.
  intros Hc Hm Hn He (Ecr & Ecc & Hcsp) (Esr & Esc & Hcssp) Hfull.
  pose proof (copy_from_csp_unrolled this csp c optimize_diag) as U2.
  pose proof (copy_from_cssp_unrolled this cssp c optimize_diag) as U3.
  pose proof (copy_from_full_unrolled this m n nz matrix c optimize_diag Hfull) as U4.
  rewrite Ecr, Ecc in U2. rewrite Esr, Esc in U3.
  destruct (fill_from_entries_built this m n c optimize_diag nz row_lengths entries)
    as (p1 & E1 & B1); try assumption.
  destruct (fill_counted_built this m n c optimize_diag nz (positions_csp csp))
    as (p2 & E2 & B2); try assumption.
  destruct (fill_counted_built this m n c optimize_diag nz (positions_cssp cssp))
    as (p3 & E3 & B3); try assumption.
  destruct (fill_counted_built this m n c optimize_diag nz (positions_full m n nz))
    as (p4 & E4 & B4); try assumption; [apply positions_full_lists |].
  exists p1, p2, p3, p4.
  split; [exact E1 |]. split; [now rewrite U2 |]. split; [now rewrite U3 |].
  split; [now rewrite U4 |]. split; [| split; [| split]].
  - intros p q Hp Hq.
    assert (Hall : forall x, In x [p1; p2; p3; p4] ->
                             built_from this m n c optimize_diag nz x).
    { intros x [<- | [<- | [<- | [<- | []]]]]; assumption. }
    assert (Hsame : same_pattern p q)
      by (eapply built_from_same; apply Hall; assumption).
    split; [exact Hsame | now apply same_pattern_exists].
  - intros Eentries.
    rewrite (represented_row_lengths m n nz row_lengths entries He), Eentries in E1.
    rewrite (fill_counted_fill_from_entries this m n c optimize_diag nz) in E4
      by (assumption || apply positions_full_lists).
    congruence.
  - intros Epos. rewrite Epos in E2. congruence.
  - intros Epos. rewrite Epos in E3. congruence.
Qed.

End Overloads.

(** ** The chunk count *)

Lemma chunk_count_divisible (m c : N) :
  1 <= c -> m + c < UInt.modulus -> m mod c = 0 ->
  chunk_count m c = Ok (m / c + 1) /\ ceil_div m c = m / c.
Proof.
  intros Hc Hm Hdiv. split; [now apply chunk_count_Ok |].
  unfold ceil_div. assert (Hc0 : c <> 0) by lia.
  pose proof (N.div_mod m c Hc0) as Em. rewrite Hdiv, N.add_0_r in Em.
  symmetry. apply (N.div_unique _ c _ (c - 1)); [lia |].
  generalize dependent (m / c). intros; lia.
Qed.

Lemma chunk_count_not_divisible (m c : N) :
  1 <= c -> m + c < UInt.modulus -> m mod c <> 0 ->
  chunk_count m c = Ok (ceil_div m c).
Proof.
  intros Hc Hm Hdiv. rewrite chunk_count_Ok by assumption. f_equal.
  unfold ceil_div. assert (Hc0 : c <> 0) by lia.
  pose proof (N.div_mod m c Hc0) as Em.
  pose proof (N.mod_lt m c Hc0) as Hlt.
  apply (N.div_unique _ c _ (m mod c - 1)); [lia |].
  rewrite N.mul_add_distr_l.
  generalize dependent (m mod c). generalize dependent (m / c). intros; lia.
Qed.

(** C3, on the code: [reinit (8, 8, 3, 4, true)] sizes the wrapped object
    3 by 3, one chunk row and one chunk column more than
    [ceil (8 / 4) = 8 / 4 = 2]. *)
Theorem reinit_8_by_8_chunks_of_4 :
  reinit_max_per_row Examples.fresh 8 8 3 4 true
  = Ok {| rows := 8; cols := 8; chunk_size := 4;
          sparsity_pattern :=
            {| Mock.n_rows := 3; Mock.n_cols := 3; Mock.entries := [] |} |}
  /\ chunk_count 8 4 = Ok 3
  /\ ceil_div 8 4 = 2 /\ 8 / 4 = 2 /\ 8 mod 4 = 0.
Proof. repeat split. Qed.

(** ** The example sources hold the same nonzeros *)

Lemma listed_nonzeros (m n : N) (l0 l : list (N * N)) :
  NoDup l -> (forall e, In e l <-> In e l0) ->
  (forall e, In e l0 -> e.1 < m /\ e.2 < n) ->
  lists_nonzeros m n (fun i j => existsb (Mock.is_entry i j) l0) l.
Proof.
  intros Hnd Hsame Hrange. split; [exact Hnd |].
  intros i j. rewrite Hsame. split.
  - intros Hin. destruct (Hrange _ Hin) as [Hi Hj]. simpl in Hi, Hj.
    repeat split; try assumption.
    apply existsb_exists. exists (i, j). split; [assumption |].
    unfold Mock.is_entry. simpl. now rewrite !N.eqb_refl.
  - intros (_ & _ & Hex). apply existsb_exists in Hex.
    destruct Hex as ([a b] & Hin & Heq). unfold Mock.is_entry in Heq. simpl in Heq.
    apply andb_prop in Heq. destruct Heq as [Ea Eb].
    apply N.eqb_eq in Ea, Eb. now subst.
Qed.

Lemma example_nonzeros_in_range (e : N * N) :
  In e Examples.nonzeros -> e.1 < 2 /\ e.2 < 3.
Proof.
  intros He. repeat (destruct He as [<- | He]; [split; reflexivity |]). destruct He.
Qed.

Lemma example_nonzeros_listed : lists_nonzeros 2 3 Examples.nz Examples.nonzeros.
Proof.
  apply (listed_nonzeros 2 3 Examples.nonzeros Examples.nonzeros).
  - apply NoDup_ListNoDup. repeat constructor; simpl; intuition discriminate.
  - reflexivity.
  - apply example_nonzeros_in_range.
Qed.

Lemma example_entries_represent :
  represents_entries 2 3 Examples.nz Examples.row_lengths Examples.insertions.
Proof.
  split.
  - exists Examples.nonzeros. split; [apply example_nonzeros_listed | reflexivity].
  - intros i j. rewrite <- (proj2 example_nonzeros_listed i j).
    unfold Examples.insertions, Examples.nonzeros. simpl. tauto.
Qed.

Lemma example_csp_represents : represents_csp 2 3 Examples.nz Examples.csp.
Proof.
  split; [reflexivity |]. split; [reflexivity |].
  change (positions_csp Examples.csp) with Examples.nonzeros.
  apply example_nonzeros_listed.
Qed.

Lemma example_cssp_represents : represents_cssp 2 3 Examples.nz Examples.cssp.
Proof.
  split; [reflexivity |]. split; [reflexivity |].
  change (positions_cssp Examples.cssp) with [(0, 2); (0, 0); (1, 1)].
  apply (listed_nonzeros 2 3 Examples.nonzeros).
  - apply NoDup_ListNoDup. repeat constructor; simpl; intuition discriminate.
  - intros e. unfold Examples.nonzeros. simpl. tauto.
  - apply example_nonzeros_in_range.
Qed.

Lemma example_matrix_represents :
  represents_full Examples.nonzero 2 3 Examples.nz Examples.matrix.
Proof.
  split; [reflexivity |]. split; [reflexivity |].
  intros i j Hi Hj.
  assert (Ei : i = 0 \/ i = 1) by lia.
  assert (Ej : j = 0 \/ j = 1 \/ j = 2) by lia.
  destruct Ei as [-> | ->]; destruct Ej as [-> | [-> | ->]];
    eexists; (split; [reflexivity | reflexivity]).
Qed.

(** ** The theorems at concrete patterns *)

(** C8, as stated, at [More.huge_chunks], the 10 by 10 pattern that a
    pattern with chunks of 2147483649 reads from the bytes of [Examples.T]:
    the coarse bandwidth is 1, [1 * 2147483649 + 2147483648] wraps around to
    1, and [bandwidth ()] is 1 where the smaller of
    [coarse bandwidth * chunk_size + (chunk_size - 1)] and [max (rows, cols)]
    is 10. *)
Lemma bandwidth_wraps_around :
  constructed More.huge_chunks
  /\ rows More.huge_chunks = 10 /\ cols More.huge_chunks = 10
  /\ chunk_size More.huge_chunks = 2147483649
  /\ sp_bandwidth (sparsity_pattern More.huge_chunks) = 1
  /\ bandwidth More.huge_chunks = 1
  /\ N.min (sp_bandwidth (sparsity_pattern More.huge_chunks)
            * chunk_size More.huge_chunks
            + (chunk_size More.huge_chunks - 1))
           (N.max (rows More.huge_chunks) (cols More.huge_chunks)) = 10
  /\ bandwidth More.huge_chunks
     <> N.min (sp_bandwidth (sparsity_pattern More.huge_chunks)
               * chunk_size More.huge_chunks
               + (chunk_size More.huge_chunks - 1))
              (N.max (rows More.huge_chunks) (cols More.huge_chunks)).
Proof.
  split.
  - assert (Hreader : constructed More.huge_reader).
    { apply (constructed_reinit Examples.fresh 1 1 [1] 2147483649 false);
        reflexivity. }
    assert (E : exists p' in',
              block_read More.huge_reader (source More.T_bytes) = Ok (p', in')
              /\ More.huge_chunks = compress p')
      by (eexists _, _; split; reflexivity).
    destruct E as (p' & in' & E & ->).
    apply constructed_compress.
    exact (constructed_block_read More.huge_reader _ p' in' Hreader E).
  - split; [reflexivity |]. split; [reflexivity |]. split; [reflexivity |].
    split; [reflexivity |]. split; [reflexivity |]. split; [reflexivity |].
    intros E. vm_compute in E. discriminate E.
Qed.

Lemma block_read_after_block_write_witness :
  constructed Examples.P
  /\ exists out p',
       block_write Examples.P sink = Ok out
       /\ block_read Examples.R (source (written out ++ chars "tail"))
          = Ok (p', source (chars "tail"))
       /\ same_pattern p' Examples.P.
Proof.
  assert (HP : constructed Examples.P).
  { apply (constructed_fill_from_entries Examples.fresh 4 4 [1; 0; 0; 0] [(0, 0)] 2 false);
      reflexivity. }
  split; [exact HP |].
  destruct (block_read_after_block_write Examples.P Examples.R (chars "tail") HP)
    as (out & p' & Ew & Er & _ & _ & _ & _ & Hsame).
  exists out, p'. split; [exact Ew |]. split; [exact Er |].
  apply Hsame. reflexivity.
Defined.

Lemma block_write_bytes_witness :
  good sink = true
  /\ block_write Examples.P sink
     = Ok {| written := chars "[4 4 ][3 3 1 0 0 ]"; good := true |}.
Proof.
  split; [reflexivity |].
  exact (proj1 (block_write_bytes Examples.P sink eq_refl)).
Defined.

Lemma reinit_chunk_row_capacity_witness :
  N.of_nat (length [2; 3; 1; 5]) = 4 /\ 1 <= 2 /\ 4 + 2 < UInt.modulus
  /\ reinit Examples.fresh 4 4 [2; 3; 1; 5] 2 false
     = Ok {| rows := 4; cols := 4; chunk_size := 2;
             sparsity_pattern :=
               sp_reinit Mock.empty 3 3 [3; 5; 0] false |}.
Proof.
  split; [reflexivity |]. split; [discriminate |]. split; [reflexivity |].
  exact (proj1 (reinit_chunk_row_capacity Examples.fresh 4 4 [2; 3; 1; 5] 2 false
                  eq_refl ltac:(discriminate) eq_refl)).
Defined.

Lemma add_in_range_inserts_once_witness :
  1 <= chunk_size Examples.P /\ 3 < rows Examples.P /\ 2 < cols Examples.P
  /\ (exists p1 p2,
         add Examples.P 3 2 = Ok p1 /\ add p1 3 2 = Ok p2 /\ same_pattern p2 p1)
  /\ (exists e, add Examples.P 4 0 = Throw e /\ precondition_violation e = true).
Proof.
  assert (Hc : 1 <= chunk_size Examples.P) by discriminate.
  split; [exact Hc |]. split; [reflexivity |]. split; [reflexivity |]. split.
  - destruct (proj2 (add_in_range_inserts_once Examples.P 3 2 Hc) eq_refl eq_refl)
      as (p1 & p2 & E1 & _ & _ & E2 & Hsame & _).
    exists p1, p2. auto.
  - apply (proj1 (add_in_range_inserts_once Examples.P 4 0 Hc)).
    left. discriminate.
Defined.

Lemma exists_reads_the_chunk_witness :
  1 <= chunk_size Examples.P
  /\ (exists p', add Examples.P 2 2 = Ok p' /\ exists_ p' 3 3 = Ok true)
  /\ exists_ Examples.P 1 1 = Ok true.
Proof.
  assert (Hc : 1 <= chunk_size Examples.P) by discriminate.
  split; [exact Hc |]. split.
  - exact (proj1 (exists_reads_the_chunk Examples.P Hc) 2 2 3 3
             eq_refl eq_refl eq_refl eq_refl eq_refl eq_refl).
  - exact (proj2 (exists_reads_the_chunk Examples.P Hc) 1 1 eq_refl eq_refl).
Defined.

Lemma bandwidth_is_clamped_witness :
  1 <= chunk_size Examples.T
  /\ sp_bandwidth (sparsity_pattern Examples.T) * chunk_size Examples.T
     + (chunk_size Examples.T - 1) < UInt.modulus
  /\ bandwidth Examples.T = 7.
Proof.
  split; [discriminate |]. split; [reflexivity |].
  exact (proj1 (proj2 (bandwidth_is_clamped Examples.T ltac:(discriminate))) eq_refl).
Defined.

Lemma copy_only_from_unsized_witness :
  (rows Examples.P <> 0 \/ cols Examples.P <> 0)
  /\ (exists e, copy_constructor (0, 0) Examples.P = Throw e
                /\ precondition_violation e = true)
  /\ (exists e, assign Examples.Q Examples.P = Throw e
                /\ precondition_violation e = true)
  /\ is_ok (assign Examples.Q Examples.unsized) = true
  /\ rows Examples.unsized = 0 /\ cols Examples.unsized = 0.
Proof.
  assert (Hs : rows Examples.P <> 0 \/ cols Examples.P <> 0) by (left; discriminate).
  split; [exact Hs |].
  destruct (proj1 (copy_only_from_unsized Examples.P) Hs) as [Hcopy Hassign].
  split; [apply Hcopy |]. split; [apply Hassign |]. split; [reflexivity |].
  exact (proj1 (proj2 (copy_only_from_unsized Examples.unsized))
           Examples.Q
           (with_sparsity_pattern Examples.Q (sparsity_pattern Examples.unsized))
           eq_refl).
Defined.

Lemma constructors_divide_by_zero_witness :
  default_constructor (SP := Mock.t) true (1, 2, 3) = Fault DivisionByZero
  /\ copy_constructor (1, 2) Examples.unsized = Fault DivisionByZero
  /\ reinit Examples.fresh 2 2 [1; 1] 0 false = Fault DivisionByZero
  /\ is_ok (reinit Examples.fresh 2 2 [1; 1] 2 false) = true /\ 1 <= 2.
Proof.
  destruct (constructors_divide_by_zero (SP := Mock.t)) as (Hd & Hc & Hz & Hok).
  split; [apply Hd |].
  split; [apply (Hc (1, 2) Examples.unsized (sparsity_pattern Examples.unsized));
          reflexivity |].
  split; [apply Hz; reflexivity |]. split; [reflexivity |].
  apply (Hok Examples.fresh
             {| rows := 2; cols := 2; chunk_size := 2;
                sparsity_pattern := sp_reinit Mock.empty 2 2 [1] false |}
             2 2 [1; 1] 2 false).
  reflexivity.
Defined.

Lemma copy_from_overloads_agree_witness :
  1 <= 2 /\ 2 + 2 < UInt.modulus /\ 3 < UInt.modulus
  /\ exists p1 p2 p3 p4,
       fill_from_entries Examples.fresh 2 3 Examples.row_lengths Examples.insertions
                         2 false = Ok p1
       /\ copy_from_csp Examples.fresh Examples.csp 2 false = Ok p2
       /\ copy_from_cssp Examples.fresh Examples.cssp 2 false = Ok p3
       /\ copy_from_full Examples.nonzero Examples.fresh Examples.matrix 2 false = Ok p4
       /\ same_pattern p1 p2 /\ same_pattern p1 p3 /\ same_pattern p3 p4
       /\ p2 = p4.
Proof.
  split; [discriminate |]. split; [reflexivity |]. split; [reflexivity |].
  destruct (copy_from_overloads_agree Examples.nonzero Examples.fresh 2 3 2 false
              Examples.nz Examples.row_lengths Examples.insertions
              Examples.csp Examples.cssp Examples.matrix)
    as (p1 & p2 & p3 & p4 & E1 & E2 & E3 & E4 & Hsame & _ & H24 & _).
  - discriminate.
  - reflexivity.
  - reflexivity.
  - exact example_entries_represent.
  - exact example_csp_represents.
  - exact example_cssp_represents.
  - exact example_matrix_represents.
  - exists p1, p2, p3, p4.
    split; [exact E1 |]. split; [exact E2 |]. split; [exact E3 |]. split; [exact E4 |].
    split; [apply Hsame; simpl; tauto |].
    split; [apply Hsame; simpl; tauto |].
    split; [apply Hsame; simpl; tauto |].
    apply H24. reflexivity.
Defined.

(** The 10 by 10 pattern with chunks of 4 and the entries (0, 0), (0, 5)
    and (9, 9): a 3 by 3 grid of chunks with (0, 0), (0, 1) and (2, 2)
    present, [exists (1, 1)] true, [exists (5, 5)] false, and a bandwidth
    of [1 * 4 + 3 = 7]. *)
Example pattern_10_by_10_chunks_of_4 :
  sparsity_pattern Examples.T
  = {| Mock.n_rows := 3; Mock.n_cols := 3;
       Mock.entries := [(0, 0); (0, 1); (2, 2)] |}
  /\ exists_ Examples.T 1 1 = Ok true
  /\ exists_ Examples.T 5 5 = Ok false
  /\ bandwidth Examples.T = 7.
Proof. repeat split. Qed.

(** * Further properties *)

(** ** [reinit] and the constructors *)

Section ReinitMore.
Context {SP : Type} `{SparsityPatternOps SP}.

Implicit Types p this : ChunkSparsityPattern SP.

Lemma reinit_wrong_length this (m n : N) (row_lengths : list N) (c : N)
    (optimize_diag : bool) :
  N.of_nat (length row_lengths) <> m ->
  reinit this m n row_lengths c optimize_diag = Throw (ExcInvalidNumber m).
Proof.
  intros Hlen. unfold reinit, reinit_slice.
  destruct (N.eqb_spec (N.of_nat (length row_lengths)) m) as [E | _];
    [contradiction | reflexivity].
Qed.

(** X1: for [unsigned int] arguments, [reinit] throws [ExcInvalidNumber (m)]
    when [row_lengths] does not have [m] elements, divides by zero for a
    chunk size of zero, subscripts [chunk_row_lengths] out of range when
    [m + chunk_size] wraps around, and returns in every other case and in
    no other. *)
Theorem reinit_outcomes this (m n : N) (row_lengths : list N) (c : N)
    (optimize_diag : bool) :
  m < UInt.modulus -> c < UInt.modulus ->
  (N.of_nat (length row_lengths) <> m ->
   reinit this m n row_lengths c optimize_diag = Throw (ExcInvalidNumber m))
  /\ (N.of_nat (length row_lengths) = m -> c = 0 ->
      reinit this m n row_lengths c optimize_diag = Fault DivisionByZero)
  /\ (N.of_nat (length row_lengths) = m -> 1 <= c -> UInt.modulus <= m + c ->
      reinit this m n row_lengths c optimize_diag = Fault VectorSubscript)
  /\ (is_ok (reinit this m n row_lengths c optimize_diag) = true
      <-> N.of_nat (length row_lengths) = m /\ 1 <= c /\ m + c < UInt.modulus).
Proof.
  intros Hm Hc.
  split; [apply reinit_wrong_length |].
  split; [intros Hlen ->; now apply reinit_zero_chunk_size |].
  split; [intros Hlen Hc1 Hover; now apply reinit_beyond_unsigned |].
  split.
  - intros Hok.
    destruct (N.eq_dec (N.of_nat (length row_lengths)) m) as [Hlen | Hlen];
      [| rewrite reinit_wrong_length in Hok by assumption; discriminate Hok].
    destruct (N.eq_dec c 0) as [-> | Hc0];
      [rewrite reinit_zero_chunk_size in Hok by assumption; discriminate Hok |].
    destruct (N.lt_ge_cases (m + c) UInt.modulus) as [Hfit | Hover];
      [split; [assumption | split; [lia | assumption]] |].
    rewrite reinit_beyond_unsigned in Hok by (assumption || lia). discriminate Hok.
  - intros (Hlen & Hc1 & Hfit). now rewrite reinit_Ok.
Qed.

Lemma chunk_row_max_replicate (m x c k : N) :
  1 <= c ->
  chunk_row_max (replicate (N.to_nat m) x) c k = if k * c <? m then x else 0.
Proof.
  intros Hc.
  destruct (chunk_row_max_is_max (replicate (N.to_nat m) x) c k) as [Hup Hat].
  destruct (N.ltb_spec (k * c) m) as [Hk | Hk].
  - assert (Hx : x <= chunk_row_max (replicate (N.to_nat m) x) c k).
    { apply (Hup (k * c)); [apply lookup_replicate_2; lia |].
      apply N.div_mul. lia. }
    destruct Hat as [E0 | (i & Ei & _)]; [lia |].
    apply lookup_replicate in Ei. now destruct Ei.
  - destruct Hat as [E0 | (i & Ei & Eik)]; [assumption | exfalso].
    apply lookup_replicate in Ei. destruct Ei as [_ Hi].
    pose proof (N.Div0.mul_div_le i c) as Hle. rewrite Eik in Hle. lia.
Qed.

(** X2: [reinit (m, n, max_per_row, chunk_size, optimize_diag)] hands the
    wrapped object [max_per_row] as the length of every chunk row that holds
    a row, and zero for a chunk row that holds none: that is the chunk row
    in surplus when [chunk_size] divides [m]. *)
Theorem reinit_max_per_row_capacity this (m n max_per_row c : N)
    (optimize_diag : bool) :
  1 <= c -> m + c < UInt.modulus ->
  reinit_max_per_row this m n max_per_row c optimize_diag
  = Ok {| rows := m; cols := n; chunk_size := c;
          sparsity_pattern :=
            sp_reinit (sparsity_pattern this) (m / c + 1) (UInt.add n c / c)
                      (map (fun k => if k * c <? m then max_per_row else 0)
                           (count_up (m / c + 1)))
                      optimize_diag |}
  /\ (forall k, k < m / c -> (k * c <? m) = true)
  /\ ((m / c * c <? m) = false <-> m mod c = 0).
Proof.
  intros Hc Hm. split; [| split].
  - unfold reinit_max_per_row. rewrite reinit_Ok; try assumption.
    + do 3 f_equal. apply map_ext. intros k. now apply chunk_row_max_replicate.
    + rewrite length_replicate. lia.
  - intros k Hk. apply N.ltb_lt.
    pose proof (N.Div0.mul_div_le m c) as Hle.
    generalize dependent (m / c). intros q Hk Hle. nia.
  - assert (Hc0 : c <> 0) by lia.
    pose proof (N.div_mod m c Hc0) as Em.
    rewrite N.ltb_ge, (N.mul_comm (m / c) c).
    generalize dependent (m mod c). generalize dependent (m / c). intros; lia.
Qed.

(** X3: every constructed pattern has a chunk size of at least one and
    fields that are [unsigned int]s, so neither [add] nor [exists] divides
    by zero on it: each returns or throws. *)
Theorem constructed_patterns_never_fault p :
  constructed p ->
  1 <= chunk_size p /\ chunk_size p < UInt.modulus
  /\ rows p < UInt.modulus /\ cols p < UInt.modulus
  /\ forall i j u, add p i j <> Fault u /\ exists_ p i j <> Fault u.
Proof.
  intros Hp. destruct (constructed_well_sized p Hp) as (Hc & Hc' & Hr & Hk).
  repeat (split; [assumption |]).
  intros i j u. unfold add, exists_.
  destruct (i <? rows p); cbn [Assert mbind result_bind]; [| split; discriminate].
  destruct (j <? cols p); cbn [Assert mbind result_bind]; [| split; discriminate].
  rewrite !div_Ok by assumption. cbn [mbind result_bind]. split; discriminate.
Qed.

(** X4: the chunk count is [floor (m / c) + 1]; it is the ceiling of
    [m / c] exactly when [c] does not divide [m], every index below [m]
    falls into a chunk below the count, and the last chunk starts at an
    index of at most [m]. *)
Theorem chunk_count_is_floor_plus_one (m c : N) :
  1 <= c -> m + c < UInt.modulus ->
  chunk_count m c = Ok (m / c + 1)
  /\ (m / c + 1 = ceil_div m c <-> m mod c <> 0)
  /\ (forall i, i < m -> i / c < m / c + 1)
  /\ m / c * c <= m.
Proof.
  intros Hc Hm. split; [now apply chunk_count_Ok |]. split; [| split].
  - split.
    + intros E Hdiv. destruct (chunk_count_divisible m c Hc Hm Hdiv) as [_ E'].
      rewrite E' in E. lia.
    + intros Hdiv. pose proof (chunk_count_not_divisible m c Hc Hm Hdiv) as E.
      rewrite chunk_count_Ok in E by assumption. now injection E.
  - intros i Hi. assert (i / c <= m / c) by (apply N.Div0.div_le_mono; lia). lia.
  - rewrite N.mul_comm. apply N.Div0.mul_div_le.
Qed.

(** X5: when [n + chunk_size] wraps around, [reinit] still returns, with
    fewer chunk columns than the columns need: the chunk of the last column
    lies outside the grid the wrapped object was sized for. *)
Theorem reinit_too_few_chunk_columns this (m n : N) (row_lengths : list N) (c : N)
    (optimize_diag : bool) :
  N.of_nat (length row_lengths) = m -> 1 <= c -> m + c < UInt.modulus ->
  n < UInt.modulus -> UInt.modulus <= n + c ->
  exists n_chunks,
    reinit this m n row_lengths c optimize_diag
    = Ok {| rows := m; cols := n; chunk_size := c;
            sparsity_pattern :=
              sp_reinit (sparsity_pattern this) (m / c + 1) n_chunks
                        (map (chunk_row_max row_lengths c) (count_up (m / c + 1)))
                        optimize_diag |}
    /\ n_chunks = (n + c - UInt.modulus) / c
    /\ n_chunks <= (n - 1) / c.
Proof.
  intros Hlen Hc Hm Hn Hover.
  assert (Ew : UInt.add n c = n + c - UInt.modulus).
  { unfold UInt.add, UInt.wrap. symmetry. apply (N.mod_unique _ _ 1); lia. }
  exists ((n + c - UInt.modulus) / c). split; [| split; [reflexivity |]].
  - rewrite reinit_Ok by assumption. now rewrite Ew.
  - apply N.Div0.div_le_mono. lia.
Qed.

End ReinitMore.

(** ** [add], [exists], [operator =], [bandwidth] *)

Section EntriesMore.
Context {SP : Type} `{SparsityPatternLaws SP}.

Implicit Types p this : ChunkSparsityPattern SP.

(** X6: [add] and [exists] check the row index first and the column index
    second, [add] throwing [ExcInvalidIndex] and [exists] [ExcIndexRange]
    with the offending index and its bound; [exists] throws exactly when
    [i >= rows] or [j >= cols]. *)
Theorem index_checks p (i j : N) :
  (rows p <= i ->
   add p i j = Throw (ExcInvalidIndex i (rows p))
   /\ exists_ p i j = Throw (ExcIndexRange i 0 (rows p)))
  /\ (i < rows p -> cols p <= j ->
      add p i j = Throw (ExcInvalidIndex j (cols p))
      /\ exists_ p i j = Throw (ExcIndexRange j 0 (cols p)))
  /\ (rows p <= i \/ cols p <= j
      <-> exists e, exists_ p i j = Throw e /\ precondition_violation e = true).
Proof.
  assert (Hrow : rows p <= i ->
                 add p i j = Throw (ExcInvalidIndex i (rows p))
                 /\ exists_ p i j = Throw (ExcIndexRange i 0 (rows p))).
  { intros Hi. unfold add, exists_. apply N.ltb_ge in Hi. rewrite Hi. now split. }
  assert (Hcol : i < rows p -> cols p <= j ->
                 add p i j = Throw (ExcInvalidIndex j (cols p))
                 /\ exists_ p i j = Throw (ExcIndexRange j 0 (cols p))).
  { intros Hi Hj. unfold add, exists_. apply N.ltb_lt in Hi. apply N.ltb_ge in Hj.
    rewrite Hi, Hj. now split. }
  split; [exact Hrow |]. split; [exact Hcol |]. split.
  - intros Hij. destruct (N.lt_ge_cases i (rows p)) as [Hi | Hi].
    + destruct Hij as [Hi' | Hj]; [lia |].
      eexists. split; [apply (Hcol Hi Hj) | reflexivity].
    + eexists. split; [apply (Hrow Hi) | reflexivity].
  - intros (e & E & _).
    destruct (N.lt_ge_cases i (rows p)) as [Hi | Hi]; [| now left].
    destruct (N.lt_ge_cases j (cols p)) as [Hj | Hj]; [| now right].
    exfalso. unfold exists_ in E. apply N.ltb_lt in Hi, Hj. rewrite Hi, Hj in E.
    cbn [Assert mbind result_bind] in E. unfold UInt.div in E.
    destruct (chunk_size p =? 0); discriminate E.
Qed.

(** X7: [add (i, j)] changes neither the size nor the chunk size, and
    [exists] answers as before for every entry of another chunk. *)
Theorem add_keeps_other_chunks p (i j i' j' : N) :
  1 <= chunk_size p ->
  i < rows p -> j < cols p -> i' < rows p -> j' < cols p ->
  i' / chunk_size p <> i / chunk_size p \/ j' / chunk_size p <> j / chunk_size p ->
  exists p',
    add p i j = Ok p'
    /\ rows p' = rows p /\ cols p' = cols p /\ chunk_size p' = chunk_size p
    /\ exists_ p' i' j' = exists_ p i' j'.
Proof.
  intros Hc Hi Hj Hi' Hj' Hother. eexists. split; [now apply add_Ok |].
  repeat (split; [reflexivity |]).
  rewrite !exists_Ok by assumption. cbn [chunk_size sparsity_pattern with_sparsity_pattern].
  rewrite sp_exists_add. f_equal.
  destruct (N.eqb_spec (i' / chunk_size p) (i / chunk_size p)) as [Ei | _];
    [| reflexivity].
  destruct (N.eqb_spec (j' / chunk_size p) (j / chunk_size p)) as [Ej | _];
    [| reflexivity].
  destruct Hother; contradiction.
Qed.

(** X8: two sequences of insertions that touch the same chunks, in whatever
    order and however often, leave patterns that cannot be told apart. *)
Theorem insertions_into_the_same_chunks_agree p (l1 l2 : list (N * N)) :
  1 <= chunk_size p ->
  (forall e, In e l1 -> e.1 < rows p /\ e.2 < cols p) ->
  (forall e, In e l2 -> e.1 < rows p /\ e.2 < cols p) ->
  (forall e1, In e1 l1 ->
     exists e2, In e2 l2 /\ e2.1 / chunk_size p = e1.1 / chunk_size p
                /\ e2.2 / chunk_size p = e1.2 / chunk_size p) ->
  (forall e2, In e2 l2 ->
     exists e1, In e1 l1 /\ e1.1 / chunk_size p = e2.1 / chunk_size p
                /\ e1.2 / chunk_size p = e2.2 / chunk_size p) ->
  exists p1 p2,
    for_each l1 (fun e this => add this e.1 e.2) p = Ok p1
    /\ for_each l2 (fun e this => add this e.1 e.2) p = Ok p2
    /\ same_pattern p1 p2
    /\ forall i j, exists_ p1 i j = exists_ p2 i j.
Proof.
  intros Hc Hin1 Hin2 H12 H21.
  destruct (add_loop l1 p Hc Hin1) as (p1 & E1 & Hr1 & Hk1 & Hs1 & Hex1).
  destruct (add_loop l2 p Hc Hin2) as (p2 & E2 & Hr2 & Hk2 & Hs2 & Hex2).
  exists p1, p2. split; [exact E1 |]. split; [exact E2 |].
  assert (Hsame : same_pattern p1 p2).
  { split; [congruence |]. split; [congruence |]. split; [congruence |].
    intros r k. rewrite Hex1, Hex2. f_equal.
    apply eq_true_iff_eq. rewrite !existsb_exists. unfold in_chunk.
    split; intros (e & He & Hrk).
    - destruct (H12 e He) as (e' & He' & Er & Ek). exists e'.
      split; [assumption |]. now rewrite Er, Ek.
    - destruct (H21 e He) as (e' & He' & Er & Ek). exists e'.
      split; [assumption |]. now rewrite Er, Ek. }
  split; [exact Hsame | now apply same_pattern_exists].
Qed.

(** X9: [operator =] takes over the wrapped object of the source and
    nothing else: it returns only for a source with [rows = 0] and
    [cols = 0], and the pattern assigned to keeps its own [rows], [cols]
    and [chunk_size]. *)
Theorem assign_takes_only_the_wrapped_object this s p :
  assign this s = Ok p ->
  rows s = 0 /\ cols s = 0
  /\ rows p = rows this /\ cols p = cols this /\ chunk_size p = chunk_size this
  /\ sp_assign (sparsity_pattern this) (sparsity_pattern s)
     = Some (sparsity_pattern p).
Proof.
  unfold assign. intros E.
  bind_inv E. apply Assert_Ok_inv, N.eqb_eq in E0.
  bind_inv E. apply Assert_Ok_inv, N.eqb_eq in E1.
  destruct (sp_assign _ _) as [sp |]; [| discriminate E].
  injection E as <-. repeat split; assumption.
Qed.

Lemma bandwidth_no_wrap p :
  1 <= chunk_size p ->
  sp_bandwidth (sparsity_pattern p) * chunk_size p + (chunk_size p - 1) < UInt.modulus ->
  bandwidth p
  = N.min (sp_bandwidth (sparsity_pattern p) * chunk_size p + (chunk_size p - 1))
          (N.max (rows p) (cols p)).
Proof.
  intros Hc Hfit. unfold bandwidth, n_rows, n_cols, UInt.add, UInt.mul, UInt.sub.
  assert (E1 : UInt.wrap (chunk_size p + UInt.modulus - 1) = chunk_size p - 1).
  { unfold UInt.wrap. symmetry. apply (N.mod_unique _ _ 1); lia. }
  rewrite E1, (wrap_small (_ * _)) by lia.
  now rewrite wrap_small by assumption.
Qed.

(** X10: [bandwidth ()] never exceeds [max (rows, cols)]; and where the
    arithmetic does not wrap it is at least [chunk_size - 1] unless cut off,
    also for a wrapped object of bandwidth zero, where it is
    [min (chunk_size - 1, max (rows, cols))]. *)
Theorem bandwidth_bounds p :
  bandwidth p <= N.max (rows p) (cols p)
  /\ (1 <= chunk_size p ->
      sp_bandwidth (sparsity_pattern p) * chunk_size p + (chunk_size p - 1)
      < UInt.modulus ->
      N.min (chunk_size p - 1) (N.max (rows p) (cols p)) <= bandwidth p
      /\ (sp_bandwidth (sparsity_pattern p) = 0 ->
          bandwidth p = N.min (chunk_size p - 1) (N.max (rows p) (cols p)))).
Proof.
  split; [unfold bandwidth, n_rows, n_cols; apply N.le_min_r |].
  intros Hc Hfit. rewrite bandwidth_no_wrap by assumption. split.
  - apply N.min_le_compat_r. lia.
  - intros ->. reflexivity.
Qed.

End EntriesMore.

(** ** [symmetrize] and the square constructor *)

Lemma mock_has_symmetrize (s : Mock.t) (r c : N) :
  Mock.has (MockQueries.symmetrize s) r c = Mock.has s r c || Mock.has s c r.
Proof.
  unfold Mock.has, MockQueries.symmetrize. cbn [Mock.entries].
  rewrite existsb_app. f_equal.
  induction (Mock.entries s) as [| e l IH]; [reflexivity |].
  cbn [map existsb]. rewrite IH. f_equal.
  unfold Mock.is_entry, MockQueries.swap. cbn [fst snd]. apply andb_comm.
Qed.

#[global] Instance mock_symmetrize : SparsityPatternSymmetrize Mock.t.
Proof.
  split.
  - intros s r c.
    change (Mock.has (MockQueries.symmetrize s) r c
            = Mock.has (MockQueries.symmetrize s) c r).
    rewrite !mock_has_symmetrize. apply orb_comm.
  - intros s r c Hrc.
    change (Mock.has s r c = true) in Hrc.
    change (Mock.has (MockQueries.symmetrize s) r c = true).
    rewrite mock_has_symmetrize, Hrc. reflexivity.
Qed.

Section SymmetrizeMore.
Context {SP : Type} `{SparsityPatternSymmetrize SP}.

Implicit Types p this : ChunkSparsityPattern SP.

(** X11: [symmetrize ()] throws [ExcNotQuadratic] exactly when
    [rows != cols], whatever the shape of the grid of chunks.  On a square
    pattern it keeps size and chunk size, and afterwards [exists (i, j)] and
    [exists (j, i)] agree for every pair of indices below [rows], the ones
    of the last, partly filled chunk included, and every entry that was
    present still is. *)
Theorem symmetrize_makes_exists_symmetric p :
  (rows p <> cols p <-> symmetrize p = Throw ExcNotQuadratic)
  /\ (rows p = cols p -> 1 <= chunk_size p ->
      exists p',
        symmetrize p = Ok p'
        /\ rows p' = rows p /\ cols p' = cols p /\ chunk_size p' = chunk_size p
        /\ forall i j, i < rows p -> j < rows p ->
             exists_ p' i j = exists_ p' j i
             /\ (exists_ p i j = Ok true -> exists_ p' i j = Ok true)).
Proof.
  split.
  - unfold symmetrize. destruct (N.eqb_spec (rows p) (cols p)) as [E | E].
    + split; [contradiction | discriminate].
    + split; [reflexivity | intros _; exact E].
  - intros Esq Hc. unfold symmetrize.
    apply N.eqb_eq in Esq as Eb. rewrite Eb.
    eexists. split; [reflexivity |].
    cbn [rows cols chunk_size with_sparsity_pattern].
    split; [reflexivity |]. split; [reflexivity |]. split; [reflexivity |].
    intros i j Hi Hj.
    rewrite !exists_Ok
      by (cbn [rows cols chunk_size with_sparsity_pattern]; congruence || lia).
    cbn [chunk_size sparsity_pattern with_sparsity_pattern]. split.
    + f_equal. apply sp_symmetrize_symmetric.
    + intros [= Hij]. f_equal. now apply sp_symmetrize_keeps.
Qed.

(** X12: the two constructors of square patterns,
    [ChunkSparsityPattern (n, max_per_row, chunk_size)] and
    [ChunkSparsityPattern (m, row_lengths, chunk_size, optimize_diag)], build
    an [n] by [n] pattern over a square grid of chunks, the first one asking
    the wrapped object to optimise the diagonal, and [symmetrize ()] does not
    throw on what they build. *)
Theorem constructor_square_is_square (indeterminate : N * N * N)
    (n max_per_row c : N) (row_lengths : list N) (optimize_diag : bool) :
  1 <= c -> n + c < UInt.modulus ->
  (exists p capacity,
     constructor_square indeterminate n max_per_row c = Ok p
     /\ rows p = n /\ cols p = n /\ chunk_size p = c
     /\ sparsity_pattern p = sp_reinit sp_default (n / c + 1) (n / c + 1) capacity true
     /\ is_ok (symmetrize p) = true)
  /\ (N.of_nat (length row_lengths) = n ->
      exists p capacity,
        constructor_square_row_lengths indeterminate n row_lengths c optimize_diag
        = Ok p
        /\ rows p = n /\ cols p = n /\ chunk_size p = c
        /\ sparsity_pattern p
           = sp_reinit sp_default (n / c + 1) (n / c + 1) capacity optimize_diag
        /\ is_ok (symmetrize p) = true).
Proof.
  intros Hc Hn.
  assert (Hcols : UInt.add n c / c = n / c + 1).
  { unfold UInt.add. rewrite wrap_small by assumption.
    replace (n + c) with (n + 1 * c) by lia. apply N.div_add. lia. }
  split; [| intros Hlen];
    unfold constructor_square, constructor_square_row_lengths, reinit_max_per_row;
    (rewrite reinit_Ok by (assumption || (rewrite length_replicate; lia)));
    (eexists _, _; split; [reflexivity |]);
    cbn [rows cols chunk_size sparsity_pattern];
    (split; [reflexivity |]); (split; [reflexivity |]); (split; [reflexivity |]);
    (split; [destruct indeterminate as [[r k] s]; cbn [raw sparsity_pattern];
             now rewrite Hcols
            | unfold symmetrize; cbn [rows cols]; now rewrite N.eqb_refl]).
Qed.

End SymmetrizeMore.

(** ** [block_read] on any input *)

Lemma get_char_failed (i : istream) (old : option ascii) :
  failed i = true -> get_char i old = (i, old).
Proof. intros Hi. unfold get_char. now rewrite Hi. Qed.

Lemma get_char_keeps_old (i : istream) (old : option ascii) :
  failed (get_char i old).1 = true -> (get_char i old).2 = old.
Proof.
  unfold get_char. destruct (failed i); [reflexivity |].
  destruct (skipws (pending i)); [reflexivity | discriminate].
Qed.

Lemma get_uint_failed (i : istream) (old : N) :
  failed i = true -> failed (get_uint i old).1 = true.
Proof. intros Hi. unfold get_uint. now rewrite Hi. Qed.



Lemma get_char_failed_stays (i : istream) (old : option ascii) :
  failed i = true -> failed (get_char i old).1 = true.
Proof. intros Hi. unfold get_char. now rewrite Hi. Qed.



Section BlockReadMore.
Context {SP : Type} `{SparsityPatternLaws SP}.

Implicit Types p this : ChunkSparsityPattern SP.


(** X14: [block_read] throws [ExcIO] on a stream that has already failed,
    on input whose first character after white space is not ['['] (or that
    has none), and on input where, after the ['['], one of the two numbers
    cannot be extracted. *)
Theorem block_read_rejects_malformed_input p (in_ : istream) :
  failed in_ = true
  \/ (forall s, skipws (pending in_) <> "["%char :: s)
  \/ (exists s, skipws (pending in_) = "["%char :: s
                /\ let after_rows := (get_uint (source s) (rows p)).1 in
                   failed after_rows = true
                   \/ failed (get_uint after_rows (cols p)).1 = true) ->
  block_read p in_ = Throw ExcIO.
Proof.
  intros Hbad. unfold block_read.
  destruct (failed in_) eqn:Ein; [reflexivity |].
  cbn [negb Assert mbind result_bind].
  unfold get_char at 1. rewrite Ein.
  destruct Hbad as [Hbad | [Hbad | (s & Es & Hbad)]]; [discriminate Hbad | |].
  - destruct (skipws (pending in_)) as [| c s]; [reflexivity |].
    cbn [is_char]. destruct (Ascii.eqb_spec c "["%char) as [-> | Hc];
      [now elim (Hbad s) | reflexivity].
  - rewrite Es. cbn [is_char Ascii.eqb Bool.eqb Assert mbind result_bind].
    fold (source s). cbn zeta in Hbad.
    pose proof (get_uint_failed (get_uint (source s) (rows p)).1 (cols p)) as Hf.
    destruct (get_uint (source s) (rows p)) as [in2 rows'].
    cbn [fst] in Hf, Hbad.
    destruct (get_uint in2 (cols p)) as [in3 cols'].
    cbn [fst] in Hf, Hbad.
    assert (H3 : failed in3 = true) by (destruct Hbad; auto).
    rewrite (get_char_failed in3 _ H3). reflexivity.
Qed.

(** X15: on a stream that has failed before the call [block_read] throws
    [ExcIO] before it reads [c]; on input with a character that is not white
    space the first extraction assigns [c], so that every comparison reads an
    assigned [c].  On such input every exception [block_read] throws is
    [ExcIO] or the wrapped object's, and every fault is the wrapped
    object's: the checks of [block_read] are all
    [AssertThrow (..., ExcIO ())].  (On other input, which has no such
    character, the source compares a [c] that was never assigned.) *)
Theorem block_read_throws_only_ExcIO p (in_ : istream) :
  failed in_ = true \/ skipws (pending in_) <> [] ->
  (failed in_ = true -> block_read p in_ = Throw ExcIO)
  /\ (failed in_ = false -> exists in1 c, get_char in_ None = (in1, Some c))
  /\ (forall e, block_read p in_ = Throw e ->
       e = ExcIO \/ exists i, sp_block_read (sparsity_pattern p) i = Throw e)
  /\ (forall u, block_read p in_ = Fault u ->
       exists i, sp_block_read (sparsity_pattern p) i = Fault u).
Proof.
  intros Hin. split; [| split].
  { intros Hf. unfold block_read. now rewrite Hf. }
  { intros Hf. unfold get_char. rewrite Hf.
    destruct Hin as [Hin | Hin]; [congruence |].
    destruct (skipws (pending in_)) as [| c s]; [now elim Hin | eauto]. }
  clear Hin. unfold block_read.
  destruct (failed in_); cbn [negb Assert mbind result_bind];
    [split; intros ? E; [left; congruence | discriminate E] |].
  destruct (get_char in_ None) as [in1 c1].
  destruct (is_char c1 "["); cbn [Assert mbind result_bind];
    [| split; intros ? E; [left; congruence | discriminate E]].
  destruct (get_uint in1 (rows p)) as [in2 rows'].
  destruct (get_uint in2 (cols p)) as [in3 cols'].
  destruct (get_char in3 c1) as [in4 c2].
  destruct (is_char c2 "]"); cbn [Assert mbind result_bind];
    [| split; intros ? E; [left; congruence | discriminate E]].
  destruct (get_char in4 c2) as [in5 c3].
  destruct (is_char c3 "["); cbn [Assert mbind result_bind];
    [| split; intros ? E; [left; congruence | discriminate E]].
  destruct (sp_block_read (sparsity_pattern p) in5) as [[sp in6] | e' | u'] eqn:Esp;
    cbn [mbind result_bind].
  - destruct (get_char in6 c3) as [in7 c4].
    destruct (is_char c4 "]"); cbn [Assert mbind result_bind];
      split; intros ? E; try discriminate E. left; congruence.
  - split; intros ? E; [| discriminate E]. right. exists in5. congruence.
  - split; intros ? E; [discriminate E |]. exists in5. congruence.
Qed.

(** X16: [block_write] throws [ExcIO] on a stream that is not good and
    writes nothing; on a good stream it appends, so that patterns written
    one after the other to one stream are read back one after the other. *)
Theorem block_write_in_sequence (p q r1 r2 : ChunkSparsityPattern SP) (out : ostream) :
  constructed p -> constructed q ->
  (good out = false -> block_write p out = Throw ExcIO)
  /\ exists out' p' q',
       (out1 ← block_write p sink; block_write q out1) = Ok out'
       /\ (x ← block_read r1 (source (written out'));
           y ← block_read r2 x.2;
           Ok (x.1, y.1, y.2)) = Ok (p', q', source [])
       /\ rows p' = rows p /\ cols p' = cols p
       /\ rows q' = rows q /\ cols q' = cols q
       /\ (forall a b, sp_exists (sparsity_pattern p') a b
                       = sp_exists (sparsity_pattern p) a b)
       /\ (forall a b, sp_exists (sparsity_pattern q') a b
                       = sp_exists (sparsity_pattern q) a b).
Proof.
  intros Hp Hq.
  destruct (constructed_well_sized p Hp) as (_ & _ & Hpr & Hpc).
  destruct (constructed_well_sized q Hq) as (_ & _ & Hqr & Hqc).
  split.
  { intros Hbad. unfold block_write. now rewrite Hbad. }
  destruct (block_read_format r1 (rows p) (cols p) (sparsity_pattern p)
              (format_written (rows q) (cols q) (sp_block_write (sparsity_pattern q)))
              Hpr Hpc) as (sp1 & E1 & H1).
  destruct (block_read_format r2 (rows q) (cols q) (sparsity_pattern q) [] Hqr Hqc)
    as (sp2 & E2 & H2).
  rewrite app_nil_r in E2.
  eexists _, _, _. split.
  { rewrite block_write_Ok by reflexivity. cbn [mbind result_bind].
    rewrite block_write_Ok by reflexivity. reflexivity. }
  cbn [written sink app]. split.
  { rewrite E1. cbn [mbind result_bind snd fst]. rewrite E2. reflexivity. }
  cbn [rows cols sparsity_pattern]. auto 10.
Qed.

End BlockReadMore.

(** ** [copy_from] *)

Lemma count_row_app (l1 l2 : list (N * N)) (r : N) :
  count_row (l1 ++ l2) r = count_row l1 r + count_row l2 r.
Proof. unfold count_row. rewrite List.filter_app, length_app. lia. Qed.

Lemma count_row_own (l : list (N * N)) (x r : N) :
  (forall e, In e l -> e.1 = x) ->
  count_row l r = if x =? r then N.of_nat (length l) else 0.
Proof.
  intros Hl. induction l as [| e l IH]; [now destruct (x =? r) |].
  rewrite count_row_cons, IH by (intros e' He'; apply Hl; now right).
  rewrite (Hl e) by now left.
  destruct (x =? r); cbn [length]; lia.
Qed.

Lemma count_row_none (l : list (N * N)) (r : N) :
  (forall e, In e l -> e.1 <> r) -> count_row l r = 0.
Proof.
  intros Hl. induction l as [| e l IH]; [reflexivity |].
  rewrite count_row_cons, IH by (intros e' He'; apply Hl; now right).
  destruct (N.eqb_spec e.1 r) as [E | _]; [| reflexivity].
  now elim (Hl e (or_introl eq_refl)).
Qed.

Lemma count_row_rows (inner : N -> list (N * N)) (m r : N) :
  (forall x e, In e (inner x) -> e.1 = x) ->
  r < m ->
  count_row (flat_map inner (count_up m)) r = N.of_nat (length (inner r)).
Proof.
  intros Hown. induction m as [| m IH] using N.peano_ind; [lia |].
  intros Hr. rewrite <- N.add_1_r, count_up_succ, flat_map_app, count_row_app.
  cbn [flat_map]. rewrite app_nil_r.
  rewrite (count_row_own (inner m) m r) by apply Hown.
  destruct (N.eqb_spec m r) as [-> | Hne].
  - assert (E : count_row (flat_map inner (count_up r)) r = 0); [| lia].
    clear IH Hr. apply count_row_none.
    intros e He. apply in_flat_map in He. destruct He as (x & Hx & He).
    apply Hown in He. rewrite He. apply count_up_In in Hx. lia.
  - rewrite IH by lia. lia.
Qed.

Section CopyFromMore.
Context {SP : Type} `{SparsityPatternLaws SP}.

Implicit Types p this : ChunkSparsityPattern SP.

Lemma fill_counted_covers this (m n : N) (l : list (N * N)) (c : N)
    (optimize_diag : bool) :
  1 <= c -> m + c < UInt.modulus ->
  (forall e, In e l -> e.1 < m /\ e.2 < n) ->
  (forall r, r < m -> count_row l r < UInt.modulus) ->
  exists p,
    fill_counted this m n l c optimize_diag = Ok p
    /\ rows p = m /\ cols p = n /\ chunk_size p = c
    /\ (forall e, In e l -> exists_ p e.1 e.2 = Ok true)
    /\ (forall i k, i < m -> k < n -> exists_ p i k = Ok true ->
          (exists e, In e l /\ e.1 / c = i / c /\ e.2 / c = k / c)
          \/ sp_exists
               (sp_reinit (sparsity_pattern this) (m / c + 1) (UInt.add n c / c)
                  (map (chunk_row_max (row_counts m l) c) (count_up (m / c + 1)))
                  optimize_diag) (i / c) (k / c) = true).
Proof.
  intros Hc Hm Hin Hfit. unfold fill_counted.
  rewrite counting_loop_zero by (assumption || (intros e He; now apply Hin)).
  rewrite bind_Ok.
  rewrite reinit_Ok by (assumption || apply row_counts_length).
  rewrite bind_Ok.
  match goal with |- context [for_each l ?f ?q] =>
    destruct (add_loop l q) as (p' & E & Hr & Hk & Hs & Hex);
    [exact Hc | exact Hin | rewrite E]
  end.
  rewrite bind_Ok. eexists. split; [reflexivity |].
  cbn [rows cols chunk_size sparsity_pattern with_sparsity_pattern compress] in *.
  split; [exact Hr |]. split; [exact Hk |]. split; [exact Hs |].
  assert (Hread : forall i k, i < m -> k < n ->
            exists_ (compress p') i k
            = Ok (existsb (in_chunk c (i / c) (k / c)) l
                  || sp_exists
                       (sp_reinit (sparsity_pattern this) (m / c + 1) (UInt.add n c / c)
                          (map (chunk_row_max (row_counts m l) c) (count_up (m / c + 1)))
                          optimize_diag) (i / c) (k / c))).
  { intros i k Hi Hk'. unfold compress.
    rewrite exists_Ok
      by (cbn [rows cols chunk_size with_sparsity_pattern]; congruence || lia).
    cbn [chunk_size sparsity_pattern with_sparsity_pattern].
    rewrite sp_exists_compress, Hex, Hs. reflexivity. }
  split.
  - intros e He. destruct (Hin e He) as [H1 H2]. rewrite Hread by assumption.
    f_equal. apply orb_true_iff. left. apply existsb_exists. exists e.
    split; [exact He |]. unfold in_chunk. now rewrite !N.eqb_refl.
  - intros i k Hi Hk' E'. rewrite Hread in E' by assumption.
    injection E' as E'. apply orb_true_iff in E'. destruct E' as [E' | E'];
      [left | now right].
    apply existsb_exists in E'. destruct E' as (e & He & Hch).
    exists e. split; [exact He |]. unfold in_chunk in Hch.
    apply andb_true_iff in Hch. destruct Hch as [H1 H2].
    apply N.eqb_eq in H1, H2. auto.
Qed.

(** X17: [copy_from (csp, chunk_size, optimize_diag)], for a source whose
    column numbers are below [n_cols ()], returns a pattern of the size of
    the source in which every entry of the source exists; and a chunk is
    present only where the source has an entry in it or where the wrapped
    object has one after [reinit] with the row lengths of the source. *)
Theorem copy_from_csp_covers this (csp : CompressedSparsityPattern) (c : N)
    (optimize_diag : bool) :
  let m := csp_n_rows csp in
  let n := csp_n_cols csp in
  1 <= c -> m + c < UInt.modulus ->
  (forall r, r < m -> csp_row_length csp r < UInt.modulus) ->
  (forall r j, r < m -> j < csp_row_length csp r -> csp_column_number csp r j < n) ->
  exists p,
    copy_from_csp this csp c optimize_diag = Ok p
    /\ rows p = m /\ cols p = n /\ chunk_size p = c
    /\ (forall r j, r < m -> j < csp_row_length csp r ->
          exists_ p r (csp_column_number csp r j) = Ok true)
    /\ (forall i k, i < m -> k < n -> exists_ p i k = Ok true ->
          (exists r j, r < m /\ j < csp_row_length csp r
                       /\ r / c = i / c /\ csp_column_number csp r j / c = k / c)
          \/ sp_exists
               (sp_reinit (sparsity_pattern this) (m / c + 1) (UInt.add n c / c)
                  (map (chunk_row_max (map (csp_row_length csp) (count_up m)) c)
                       (count_up (m / c + 1)))
                  optimize_diag) (i / c) (k / c) = true).
Proof.
  intros m n Hc Hm Hlen Hcol.
  assert (Hin : forall e, In e (positions_csp csp) <->
            exists r j, r < m /\ j < csp_row_length csp r
                        /\ e = (r, csp_column_number csp r j)).
  { intros e. unfold positions_csp. rewrite in_flat_map. split.
    - intros (r & Hr & He). apply in_map_iff in He. destruct He as (j & <- & Hj).
      exists r, j. apply count_up_In in Hr, Hj. auto.
    - intros (r & j & Hr & Hj & ->). exists r. split; [now apply count_up_In |].
      apply in_map_iff. exists j. split; [reflexivity | now apply count_up_In]. }
  assert (Hcount : forall r, r < m ->
            count_row (positions_csp csp) r = csp_row_length csp r).
  { intros r Hr. unfold positions_csp. fold m.
    rewrite (count_row_rows
               (fun row => map (fun j => (row, csp_column_number csp row j))
                               (count_up (csp_row_length csp row))) m r).
    - rewrite length_map, count_up_length. lia.
    - intros x e He. apply in_map_iff in He. now destruct He as (j & <- & _).
    - exact Hr. }
  assert (Hcounts : row_counts m (positions_csp csp)
                    = map (csp_row_length csp) (count_up m)).
  { unfold row_counts. apply map_ext_in. intros r Hr. apply Hcount.
    now apply count_up_In. }
  rewrite copy_from_csp_unrolled.
  destruct (fill_counted_covers this m n (positions_csp csp) c optimize_diag)
    as (p & E & Hr & Hk & Hs & Hall & Honly); try assumption.
  - intros e He. apply Hin in He. destruct He as (r & j & Hr & Hj & ->).
    cbn [fst snd]. auto.
  - intros r Hr. rewrite Hcount by assumption. now apply Hlen.
  - exists p. split; [exact E |]. split; [exact Hr |]. split; [exact Hk |].
    split; [exact Hs |]. split.
    + intros r j Hr' Hj.
      apply (Hall (r, csp_column_number csp r j)), Hin. now exists r, j.
    + intros i k Hi Hk' E'. rewrite <- Hcounts.
      destruct (Honly i k Hi Hk' E') as [(e & He & H1 & H2) | Hre]; [left | now right].
      apply Hin in He. destruct He as (r & j & Hr' & Hj & ->).
      exists r, j. auto.
Qed.

(** X18: [copy_from] of a [CompressedSetSparsityPattern] whose columns
    are below [n_cols ()], likewise: every column the row iterators yield
    exists afterwards, and a chunk is present only where the source has an
    entry in it or where the wrapped object has one after [reinit] with the
    number of columns of each row. *)
Theorem copy_from_cssp_covers this (csp : CompressedSetSparsityPattern) (c : N)
    (optimize_diag : bool) :
  let m := cssp_n_rows csp in
  let n := cssp_n_cols csp in
  let row_length := fun r => N.of_nat (length (cssp_row csp r)) in
  1 <= c -> m + c < UInt.modulus ->
  (forall r, r < m -> row_length r < UInt.modulus) ->
  (forall r col, r < m -> In col (cssp_row csp r) -> col < n) ->
  exists p,
    copy_from_cssp this csp c optimize_diag = Ok p
    /\ rows p = m /\ cols p = n /\ chunk_size p = c
    /\ (forall r col, r < m -> In col (cssp_row csp r) -> exists_ p r col = Ok true)
    /\ (forall i k, i < m -> k < n -> exists_ p i k = Ok true ->
          (exists r col, r < m /\ In col (cssp_row csp r)
                         /\ r / c = i / c /\ col / c = k / c)
          \/ sp_exists
               (sp_reinit (sparsity_pattern this) (m / c + 1) (UInt.add n c / c)
                  (map (chunk_row_max (map row_length (count_up m)) c)
                       (count_up (m / c + 1)))
                  optimize_diag) (i / c) (k / c) = true).
Proof.
  intros m n row_length Hc Hm Hlen Hcol.
  assert (Hin : forall e, In e (positions_cssp csp) <->
            exists r col, r < m /\ In col (cssp_row csp r) /\ e = (r, col)).
  { intros e. unfold positions_cssp. rewrite in_flat_map. split.
    - intros (r & Hr & He). apply in_map_iff in He. destruct He as (col & <- & Hj).
      exists r, col. apply count_up_In in Hr. auto.
    - intros (r & col & Hr & Hj & ->). exists r. split; [now apply count_up_In |].
      apply in_map_iff. now exists col. }
  assert (Hcount : forall r, r < m -> count_row (positions_cssp csp) r = row_length r).
  { intros r Hr. unfold positions_cssp. fold m.
    rewrite (count_row_rows (fun row => map (pair row) (cssp_row csp row)) m r).
    - now rewrite length_map.
    - intros x e He. apply in_map_iff in He. now destruct He as (j & <- & _).
    - exact Hr. }
  assert (Hcounts : row_counts m (positions_cssp csp) = map row_length (count_up m)).
  { unfold row_counts. apply map_ext_in. intros r Hr. apply Hcount.
    now apply count_up_In. }
  rewrite copy_from_cssp_unrolled.
  destruct (fill_counted_covers this m n (positions_cssp csp) c optimize_diag)
    as (p & E & Hr & Hk & Hs & Hall & Honly); try assumption.
  - intros e He. apply Hin in He. destruct He as (r & col & Hr & Hj & ->).
    cbn [fst snd]. eauto.
  - intros r Hr. rewrite Hcount by assumption. now apply Hlen.
  - exists p. split; [exact E |]. split; [exact Hr |]. split; [exact Hk |].
    split; [exact Hs |]. split.
    + intros r col Hr' Hj. apply (Hall (r, col)), Hin. now exists r, col.
    + intros i k Hi Hk' E'. rewrite <- Hcounts.
      destruct (Honly i k Hi Hk' E') as [(e & He & H1 & H2) | Hre]; [left | now right].
      apply Hin in He. destruct He as (r & col & Hr' & Hj & ->).
      exists r, col. auto.
Qed.

End CopyFromMore.

Section CopyFromFullMore.
Context {SP : Type} `{SparsityPatternLaws SP}.
Context {number : Type} (nonzero : number -> bool).

Implicit Types p this : ChunkSparsityPattern SP.

Lemma fm_at_Ok_inv (matrix : FullMatrix number) (i j : N) (x : number) :
  fm_at matrix i j = Ok x ->
  i < dim_image matrix /\ j < dim_range matrix /\ el matrix i j = Ok x.
Proof.
  unfold fm_at. intros E.
  bind_inv E. apply Assert_Ok_inv, N.ltb_lt in E0.
  bind_inv E. apply Assert_Ok_inv, N.ltb_lt in E1. auto.
Qed.

(** X19: [copy_from (matrix, chunk_size, optimize_diag)], for a matrix
    whose storage holds [m () * n ()] elements, returns a pattern of the
    size of the matrix in which every element that is not zero exists; and a
    chunk is present only where the matrix has such an element in it or where
    the wrapped object has one after [reinit]. *)
Theorem copy_from_full_covers this (matrix : FullMatrix number) (c : N)
    (optimize_diag : bool) :
  let m := fm_m matrix in
  let n := fm_n matrix in
  N.of_nat (length (val matrix)) = m * n ->
  1 <= c -> m + c < UInt.modulus -> n < UInt.modulus ->
  exists p,
    copy_from_full nonzero this matrix c optimize_diag = Ok p
    /\ rows p = m /\ cols p = n /\ chunk_size p = c
    /\ (forall i j x, fm_at matrix i j = Ok x -> nonzero x = true ->
          exists_ p i j = Ok true)
    /\ (forall i k, i < m -> k < n -> exists_ p i k = Ok true ->
          (exists i' k' x, fm_at matrix i' k' = Ok x /\ nonzero x = true
                           /\ i' / c = i / c /\ k' / c = k / c)
          \/ exists capacity,
               sp_exists
                 (sp_reinit (sparsity_pattern this) (m / c + 1) (UInt.add n c / c)
                    capacity optimize_diag) (i / c) (k / c) = true).
Proof.
  intros m n Hlen Hc Hm Hn. unfold fm_m, fm_n in m, n.
  pose proof (full_matrix_represents nonzero matrix Hlen) as Hrep.
  set (nz := fun i j => match el matrix i j with Ok x => nonzero x | _ => false end)
    in Hrep.
  rewrite (copy_from_full_unrolled nonzero this m n nz matrix c optimize_diag Hrep).
  destruct (fill_counted_covers this m n (positions_full m n nz) c optimize_diag)
    as (p & E & Hr & Hk & Hs & Hall & Honly); try assumption.
  - intros [i j] He. apply positions_full_In in He. cbn [fst snd]. tauto.
  - intros r _.
    pose proof (count_row_bound m n nz _ r (positions_full_lists m n nz)). lia.
  - exists p. split; [exact E |]. split; [exact Hr |]. split; [exact Hk |].
    split; [exact Hs |]. split.
    + intros i j x Ex Hx. apply fm_at_Ok_inv in Ex. destruct Ex as (Hi & Hj & Ex).
      apply (Hall (i, j)), positions_full_In.
      split; [exact Hi |]. split; [exact Hj |]. unfold nz. now rewrite Ex.
    + intros i k Hi Hk' E'.
      destruct (Honly i k Hi Hk' E') as [([i' k'] & He & H1 & H2) | Hre];
        [left | right; eauto].
      apply positions_full_In in He. destruct He as (Hi' & Hk'' & Hnz).
      destruct Hrep as (_ & _ & Hrep).
      destruct (Hrep i' k' Hi' Hk'') as (x & Ex & Hx).
      exists i', k', x. cbn [fst snd] in H1, H2. rewrite Hx. auto.
Qed.

End CopyFromFullMore.

(** ** [FullMatrix] *)

Section FullMatrixMore.
Context {number : Type}.

(** X20: for a matrix whose storage holds [m () * n ()] elements, with the
    product an [unsigned int], [operator ()] returns at [i < m ()] and
    [j < n ()], both overloads the same element [val[i * n () + j]], and two
    different pairs of indices never address the same element. *)
Theorem operator_at_row_major (matrix : FullMatrix number) (i j : N) :
  N.of_nat (length (val matrix)) = fm_m matrix * fm_n matrix ->
  fm_m matrix * fm_n matrix <= UInt.modulus ->
  i < fm_m matrix -> j < fm_n matrix ->
  exists x,
    fm_at matrix i j = Ok x /\ fm_ref matrix i j = Ok x
    /\ val matrix !! N.to_nat (i * fm_n matrix + j) = Some x
    /\ forall i' j', i' < fm_m matrix -> j' < fm_n matrix ->
         UInt.add (UInt.mul i' (dim_range matrix)) j'
         = UInt.add (UInt.mul i (dim_range matrix)) j ->
         i' = i /\ j' = j.
Proof.
  unfold fm_m, fm_n. intros Hlen Hfit Hi Hj.
  assert (Hidx : forall a b, a < dim_image matrix -> b < dim_range matrix ->
            UInt.add (UInt.mul a (dim_range matrix)) b = a * dim_range matrix + b
            /\ a * dim_range matrix + b < dim_image matrix * dim_range matrix).
  { intros a b Ha Hb.
    assert (a * dim_range matrix + b < dim_image matrix * dim_range matrix) by nia.
    split; [| assumption]. unfold UInt.add, UInt.mul.
    rewrite (wrap_small (a * dim_range matrix)) by nia. apply wrap_small. lia. }
  destruct (Hidx i j Hi Hj) as [Eij Hlt].
  destruct (lookup_lt_is_Some_2 (val matrix) (N.to_nat (i * dim_range matrix + j)))
    as [x Ex]; [lia |].
  exists x. apply N.ltb_lt in Hi as Hi', Hj as Hj'.
  unfold fm_at, fm_ref, el, at_. rewrite Hi', Hj', Eij, Ex.
  cbn [Assert mbind result_bind].
  split; [reflexivity |]. split; [reflexivity |]. split; [reflexivity |].
  intros i' j' Hi2 Hj2 E. destruct (Hidx i' j' Hi2 Hj2) as [E' _].
  rewrite E' in E.
  assert (i' = i) by nia. subst i'. split; [reflexivity | lia].
Qed.

(** X21: [operator ()] throws exactly when an index is out of range; the row
    is checked first.  For a column out of range the [const] overload names
    the row index in [ExcInvalidIndex], the other overload the column index:
    the two report the same only where the two indices are equal. *)
Theorem operator_at_out_of_range (matrix : FullMatrix number) (i j : N) :
  (fm_m matrix <= i ->
   fm_at matrix i j = Throw (ExcInvalidIndex i (fm_m matrix))
   /\ fm_ref matrix i j = Throw (ExcInvalidIndex i (fm_m matrix)))
  /\ (i < fm_m matrix -> fm_n matrix <= j ->
      fm_at matrix i j = Throw (ExcInvalidIndex i (fm_n matrix))
      /\ fm_ref matrix i j = Throw (ExcInvalidIndex j (fm_n matrix))
      /\ (fm_at matrix i j = fm_ref matrix i j <-> i = j))
  /\ (i < fm_m matrix /\ j < fm_n matrix ->
      fm_at matrix i j = el matrix i j /\ fm_ref matrix i j = el matrix i j).
Proof.
  unfold fm_m, fm_n, fm_at, fm_ref.
  split; [| split].
  - intros Hi. apply N.ltb_ge in Hi. rewrite Hi. split; reflexivity.
  - intros Hi Hj. apply N.ltb_lt in Hi. apply N.ltb_ge in Hj. rewrite Hi, Hj.
    cbn [Assert mbind result_bind].
    split; [reflexivity |]. split; [reflexivity |].
    split; [intros [= E]; exact E | intros ->; reflexivity].
  - intros [Hi Hj]. apply N.ltb_lt in Hi, Hj. rewrite Hi, Hj. split; reflexivity.
Qed.

End FullMatrixMore.

(** ** The further properties at concrete patterns *)

Lemma example_P_constructed : constructed Examples.P.
Proof.
  apply (constructed_fill_from_entries Examples.fresh 4 4 [1; 0; 0; 0] [(0, 0)] 2 false);
    reflexivity.
Qed.

Lemma example_T_constructed : constructed Examples.T.
Proof.
  apply (constructed_fill_from_entries Examples.fresh 10 10
           [2; 0; 0; 0; 0; 0; 0; 0; 0; 1] [(0, 0); (0, 5); (9, 9)] 4 false);
    reflexivity.
Qed.

Lemma below_two (r : N) : r < 2 -> r = 0 \/ r = 1.
Proof. lia. Qed.

Lemma reinit_outcomes_witness :
  4 < UInt.modulus /\ 2 < UInt.modulus
  /\ is_ok (reinit Examples.fresh 4 4 [1; 0; 0; 0] 2 false) = true
  /\ reinit Examples.fresh 4 4 [1; 0; 0] 2 false = Throw (ExcInvalidNumber 4).
Proof.
  destruct (reinit_outcomes Examples.fresh 4 4 [1; 0; 0; 0] 2 false eq_refl eq_refl)
    as (_ & _ & _ & Hok).
  destruct (reinit_outcomes Examples.fresh 4 4 [1; 0; 0] 2 false eq_refl eq_refl)
    as (Hlen & _).
  split; [reflexivity |]. split; [reflexivity |]. split.
  - apply Hok. split; [reflexivity | split; [discriminate | reflexivity]].
  - apply Hlen. discriminate.
Defined.

Lemma reinit_max_per_row_capacity_witness :
  1 <= 2 /\ 4 + 2 < UInt.modulus
  /\ reinit_max_per_row Examples.fresh 4 4 3 2 false
     = Ok {| rows := 4; cols := 4; chunk_size := 2;
             sparsity_pattern := Mock.reinit Mock.empty 3 3 [3; 3; 0] false |}.
Proof.
  split; [discriminate |]. split; [reflexivity |].
  exact (proj1 (reinit_max_per_row_capacity Examples.fresh 4 4 3 2 false
                  ltac:(discriminate) eq_refl)).
Defined.

Lemma constructed_patterns_never_fault_witness :
  constructed Examples.P
  /\ add Examples.P 0 7 <> Fault DivisionByZero
  /\ exists_ Examples.P 0 7 <> Fault DivisionByZero.
Proof.
  split; [exact example_P_constructed |].
  destruct (constructed_patterns_never_fault Examples.P example_P_constructed)
    as (_ & _ & _ & _ & Hnever).
  exact (Hnever 0 7 DivisionByZero).
Defined.

Lemma chunk_count_is_floor_plus_one_witness :
  1 <= 4 /\ 10 + 4 < UInt.modulus
  /\ chunk_count 10 4 = Ok 3 /\ 3 = ceil_div 10 4.
Proof.
  split; [discriminate |]. split; [reflexivity |].
  destruct (chunk_count_is_floor_plus_one 10 4 ltac:(discriminate) eq_refl)
    as (E & Hceil & _).
  split; [exact E |]. apply Hceil. discriminate.
Defined.

Lemma reinit_too_few_chunk_columns_witness :
  N.of_nat (length [0]) = 1 /\ 1 <= 2 /\ 1 + 2 < UInt.modulus
  /\ 4294967295 < UInt.modulus /\ UInt.modulus <= 4294967295 + 2
  /\ exists n_chunks,
       reinit Examples.fresh 1 4294967295 [0] 2 false
       = Ok {| rows := 1; cols := 4294967295; chunk_size := 2;
               sparsity_pattern := Mock.reinit Mock.empty 1 n_chunks [0] false |}
       /\ n_chunks = 0.
Proof.
  split; [reflexivity |]. split; [discriminate |]. split; [reflexivity |].
  split; [reflexivity |]. split; [discriminate |].
  destruct (reinit_too_few_chunk_columns Examples.fresh 1 4294967295 [0] 2 false
              eq_refl ltac:(discriminate) eq_refl eq_refl ltac:(discriminate))
    as (n_chunks & E & En & _).
  exists n_chunks. split; [exact E | exact En].
Defined.

Lemma index_checks_witness :
  add Examples.P 4 0 = Throw (ExcInvalidIndex 4 4)
  /\ exists_ Examples.P 1 9 = Throw (ExcIndexRange 9 0 4).
Proof.
  split.
  - exact (proj1 (proj1 (index_checks Examples.P 4 0) ltac:(discriminate))).
  - exact (proj2 (proj1 (proj2 (index_checks Examples.P 1 9))
                    eq_refl ltac:(discriminate))).
Defined.

Lemma add_keeps_other_chunks_witness :
  1 <= chunk_size Examples.P
  /\ 3 / chunk_size Examples.P <> 0 / chunk_size Examples.P
  /\ exists p',
       add Examples.P 0 1 = Ok p'
       /\ exists_ p' 3 1 = exists_ Examples.P 3 1.
Proof.
  split; [discriminate |]. split; [discriminate |].
  destruct (add_keeps_other_chunks Examples.P 0 1 3 1 ltac:(discriminate)
              eq_refl eq_refl eq_refl eq_refl ltac:(left; discriminate))
    as (p' & E & _ & _ & _ & Hsame).
  exists p'. split; [exact E | exact Hsame].
Defined.

Lemma insertions_into_the_same_chunks_agree_witness :
  1 <= chunk_size Examples.P
  /\ exists p1 p2,
       for_each [(2, 3); (3, 2)] (fun e this => add this e.1 e.2) Examples.P = Ok p1
       /\ for_each [(3, 3)] (fun e this => add this e.1 e.2) Examples.P = Ok p2
       /\ same_pattern p1 p2.
Proof.
  split; [discriminate |].
  destruct (insertions_into_the_same_chunks_agree Examples.P [(2, 3); (3, 2)] [(3, 3)])
    as (p1 & p2 & E1 & E2 & Hsame & _).
  - discriminate.
  - intros e [<- | [<- | []]]; split; reflexivity.
  - intros e [<- | []]; split; reflexivity.
  - intros e [<- | [<- | []]]; exists (3, 3);
      (split; [left; reflexivity | split; reflexivity]).
  - intros e [<- | []]; exists (2, 3);
      (split; [left; reflexivity | split; reflexivity]).
  - exists p1, p2. split; [exact E1 |]. split; [exact E2 | exact Hsame].
Defined.

Lemma assign_takes_only_the_wrapped_object_witness :
  exists p,
    assign Examples.Q Examples.unsized = Ok p
    /\ rows Examples.unsized = 0 /\ rows p = 4 /\ chunk_size p = 1.
Proof.
  assert (E : exists p, assign Examples.Q Examples.unsized = Ok p)
    by (eexists; reflexivity).
  destruct E as [p E]. exists p. split; [exact E |].
  destruct (assign_takes_only_the_wrapped_object Examples.Q Examples.unsized p E)
    as (H1 & _ & H2 & _ & H3 & _).
  split; [exact H1 |]. split; [exact H2 | exact H3].
Defined.

Lemma bandwidth_bounds_witness :
  bandwidth Examples.T <= N.max (rows Examples.T) (cols Examples.T)
  /\ N.min (chunk_size Examples.T - 1) (N.max (rows Examples.T) (cols Examples.T))
     <= bandwidth Examples.T.
Proof.
  destruct (bandwidth_bounds Examples.T) as [Hup Hlow].
  split; [exact Hup |].
  exact (proj1 (Hlow ltac:(discriminate) eq_refl)).
Defined.

Lemma symmetrize_makes_exists_symmetric_witness :
  symmetrize More.ten_by_eleven = Throw ExcNotQuadratic
  /\ exists p',
       symmetrize More.square = Ok p'
       /\ exists_ p' 5 0 = exists_ p' 0 5
       /\ exists_ p' 0 5 = Ok true.
Proof.
  destruct (symmetrize_makes_exists_symmetric More.ten_by_eleven) as [Hthrow _].
  destruct (symmetrize_makes_exists_symmetric More.square) as [_ Hsym].
  split; [apply Hthrow; discriminate |].
  destruct (Hsym eq_refl ltac:(discriminate)) as (p' & E & _ & _ & _ & Hall).
  exists p'. split; [exact E |].
  destruct (Hall 5 0 eq_refl eq_refl) as [H50 _].
  destruct (Hall 0 5 eq_refl eq_refl) as [_ H05].
  split; [exact H50 | apply H05; reflexivity].
Defined.

Lemma constructor_square_is_square_witness :
  1 <= 4 /\ 6 + 4 < UInt.modulus
  /\ (exists p : ChunkSparsityPattern Mock.t,
         constructor_square (0, 0, 0) 6 2 4 = Ok p /\ rows p = 6 /\ cols p = 6)
  /\ (exists p : ChunkSparsityPattern Mock.t,
         constructor_square_row_lengths (0, 0, 0) 6 [1; 1; 1; 1; 1; 1] 4 false = Ok p
         /\ is_ok (symmetrize p) = true).
Proof.
  split; [discriminate |]. split; [reflexivity |].
  destruct (constructor_square_is_square (SP := Mock.t) (0, 0, 0) 6 2 4
              [1; 1; 1; 1; 1; 1] false ltac:(discriminate) eq_refl)
    as [(p & capacity & E & Hr & Hk & _) Hrows].
  split; [exists p; auto |].
  destruct (Hrows eq_refl) as (q & capacity' & E' & _ & _ & _ & _ & Hsym).
  exists q. auto.
Defined.


Lemma block_read_rejects_malformed_input_witness :
  block_read Examples.R (source (chars "4 4 ][3 3 0 ]")) = Throw ExcIO
  /\ block_read Examples.R (source (chars "[4 x ][3 3 0 ]")) = Throw ExcIO
  /\ block_read Examples.R (source (chars "[4 4294967296 ][3 3 0 ]")) = Throw ExcIO.
Proof.
  split; [| split].
  - apply (block_read_rejects_malformed_input Examples.R).
    right. left. intros s. discriminate.
  - apply (block_read_rejects_malformed_input Examples.R).
    right. right. eexists. split; [reflexivity |]. right. reflexivity.
  - apply (block_read_rejects_malformed_input Examples.R).
    right. right. eexists. split; [reflexivity |]. right. reflexivity.
Defined.

Lemma block_read_throws_only_ExcIO_witness :
  skipws (pending (source (chars "[4 4 ][3 3 "))) <> []
  /\ block_read Examples.R (source (chars "[4 4 ][3 3 ")) = Throw ExcIO
  /\ (ExcIO = ExcIO
      \/ exists i, sp_block_read (sparsity_pattern Examples.R) i = Throw ExcIO).
Proof.
  assert (Hin : skipws (pending (source (chars "[4 4 ][3 3 "))) <> [])
    by discriminate.
  split; [exact Hin |]. split; [reflexivity |].
  exact (proj1 (proj2 (proj2 (block_read_throws_only_ExcIO Examples.R
                                (source (chars "[4 4 ][3 3 ")) (or_intror Hin))))
           ExcIO eq_refl).
Defined.

Lemma block_write_in_sequence_witness :
  constructed Examples.P /\ constructed Examples.T
  /\ exists out' p' q',
       (out1 ← block_write Examples.P sink; block_write Examples.T out1) = Ok out'
       /\ (x ← block_read Examples.R (source (written out'));
           y ← block_read Examples.Q x.2;
           Ok (x.1, y.1, y.2)) = Ok (p', q', source [])
       /\ rows p' = 4 /\ rows q' = 10.
Proof.
  split; [exact example_P_constructed |]. split; [exact example_T_constructed |].
  destruct (block_write_in_sequence Examples.P Examples.T Examples.R Examples.Q sink
              example_P_constructed example_T_constructed)
    as (_ & out' & p' & q' & Ew & Er & H1 & _ & H2 & _).
  exists out', p', q'. split; [exact Ew |]. split; [exact Er |].
  split; [exact H1 | exact H2].
Defined.

Lemma copy_from_csp_covers_witness :
  1 <= 2 /\ 2 + 2 < UInt.modulus
  /\ exists p,
       copy_from_csp Examples.fresh Examples.csp 2 false = Ok p
       /\ rows p = 2 /\ cols p = 3
       /\ exists_ p 0 2 = Ok true.
Proof.
  split; [discriminate |]. split; [reflexivity |].
  destruct (copy_from_csp_covers Examples.fresh Examples.csp 2 false)
    as (p & E & Hr & Hk & _ & Hall & _).
  - discriminate.
  - reflexivity.
  - intros r Hr. apply below_two in Hr. destruct Hr as [-> | ->]; reflexivity.
  - intros r j Hr Hj. apply below_two in Hr. destruct Hr as [-> | ->].
    + apply below_two in Hj. destruct Hj as [-> | ->]; reflexivity.
    + assert (j = 0) as -> by (change (j < 1) in Hj; lia). reflexivity.
  - exists p. split; [exact E |]. split; [exact Hr |]. split; [exact Hk |].
    exact (Hall 0 1 eq_refl eq_refl).
Defined.

Lemma copy_from_cssp_covers_witness :
  1 <= 2 /\ 2 + 2 < UInt.modulus
  /\ exists p,
       copy_from_cssp Examples.fresh Examples.cssp 2 false = Ok p
       /\ rows p = 2 /\ cols p = 3
       /\ exists_ p 1 1 = Ok true.
Proof.
  split; [discriminate |]. split; [reflexivity |].
  destruct (copy_from_cssp_covers Examples.fresh Examples.cssp 2 false)
    as (p & E & Hr & Hk & _ & Hall & _).
  - discriminate.
  - reflexivity.
  - intros r Hr. apply below_two in Hr. destruct Hr as [-> | ->]; reflexivity.
  - intros r col Hr Hcol. apply below_two in Hr. destruct Hr as [-> | ->].
    + destruct Hcol as [<- | [<- | []]]; reflexivity.
    + destruct Hcol as [<- | []]; reflexivity.
  - exists p. split; [exact E |]. split; [exact Hr |]. split; [exact Hk |].
    apply (Hall 1 1 eq_refl). now left.
Defined.

Lemma copy_from_full_covers_witness :
  N.of_nat (length (val Examples.matrix)) = fm_m Examples.matrix * fm_n Examples.matrix
  /\ 1 <= 2 /\ 2 + 2 < UInt.modulus /\ 3 < UInt.modulus
  /\ exists p,
       copy_from_full Examples.nonzero Examples.fresh Examples.matrix 2 false = Ok p
       /\ rows p = 2 /\ cols p = 3
       /\ exists_ p 0 2 = Ok true.
Proof.
  split; [reflexivity |]. split; [discriminate |]. split; [reflexivity |].
  split; [reflexivity |].
  destruct (copy_from_full_covers Examples.nonzero Examples.fresh Examples.matrix 2 false
              eq_refl ltac:(discriminate) eq_refl eq_refl)
    as (p & E & Hr & Hk & _ & Hall & _).
  exists p. split; [exact E |]. split; [exact Hr |]. split; [exact Hk |].
  exact (Hall 0 2 (-7)%Z eq_refl eq_refl).
Defined.

Lemma operator_at_row_major_witness :
  N.of_nat (length (val Examples.matrix)) = fm_m Examples.matrix * fm_n Examples.matrix
  /\ fm_m Examples.matrix * fm_n Examples.matrix <= UInt.modulus
  /\ exists x,
       fm_at Examples.matrix 1 1 = Ok x /\ fm_ref Examples.matrix 1 1 = Ok x
       /\ val Examples.matrix !! 4%nat = Some x.
Proof.
  split; [reflexivity |]. split; [discriminate |].
  destruct (operator_at_row_major Examples.matrix 1 1 eq_refl ltac:(discriminate)
              eq_refl eq_refl)
    as (x & E1 & E2 & E3 & _).
  exists x. split; [exact E1 |]. split; [exact E2 | exact E3].
Defined.

Lemma operator_at_out_of_range_witness :
  fm_at Examples.matrix 1 3 = Throw (ExcInvalidIndex 1 3)
  /\ fm_ref Examples.matrix 1 3 = Throw (ExcInvalidIndex 3 3)
  /\ fm_at Examples.matrix 2 0 = Throw (ExcInvalidIndex 2 2).
Proof.
  destruct (operator_at_out_of_range Examples.matrix 1 3) as (_ & Hcol & _).
  destruct (Hcol eq_refl ltac:(discriminate)) as (E1 & E2 & _).
  split; [exact E1 |]. split; [exact E2 |].
  exact (proj1 (proj1 (operator_at_out_of_range Examples.matrix 2 0)
                  ltac:(discriminate))).
Defined.
